(** * beacon: the immutable snapshot stores and their merge algebra

    A shallow embedding of the two mergeable payloads of the repository,
    the todo list of package [httpserver] ([httpserver-example/state.go])
    and the Sudoku board of package [sudokuexample], and of the read /
    compute / swap discipline of their HTTP handlers, followed by the
    properties the specification states about them.

    Conventions.  A Go [int] is a 64-bit two's complement integer, kept
    here as a [Z] with the wrap-around of [+] written out.  A slice is
    modelled by the sequence of its elements, so snapshot equality is the
    value equality of the specification (a nil and an empty slice are the
    same sequence); module [slicemem] refines [Add] to slice headers and
    backing arrays.  A [[9][9]int] array is a list of rows; the predicate
    [wf_board] says that it has the 9 x 9 shape the Go type guarantees. *)

From stdpp Require Import gmap strings list.

#[local] Set Warnings "-clear-no-such-hyp".

(* ================================================================== *)
(** * Part I: definitions                                              *)
(* ================================================================== *)

(** ** Go's [int] *)

Module GoInt.

Definition min_int : Z := (- 2 ^ 63)%Z.
Definition max_int : Z := (2 ^ 63 - 1)%Z.

Definition in_range (z : Z) : Prop := (min_int ≤ z ≤ max_int)%Z.

(** Two's complement reduction of a mathematical integer to 64 bits. *)
Definition wrap (z : Z) : Z := ((z + 2 ^ 63) `mod` 2 ^ 64 - 2 ^ 63)%Z.

(** [a + b] on [int]: overflow wraps around, it does not panic. *)
Definition add (a b : Z) : Z := wrap (a + b).

End GoInt.

(** ** Package httpserver: the record-collection snapshot *)

Module httpserver.

(** A [time.Time] reading.  [Add] and [Merge] only store and copy it. *)
Definition Time := Z.

Record Todo := mkTodo {
  ID : Z;
  Title : string;
  Completed : bool;
  CreatedAt : Time
}.

Record TodoState := mkTodoState {
  Todos : list Todo;
  NextID : Z
}.

(** The zero value of [Todo], which [make] fills a fresh slice with. *)
Definition zeroTodo : Todo :=
  {| ID := 0; Title := ""; Completed := false; CreatedAt := 0%Z |}.

(** [make([]Todo, n)] *)
Definition make (n : nat) : list Todo := replicate n zeroTodo.

(** [copy(dst, src)]: overwrites the first [min (len dst) (len src)]
    elements of [dst]. *)
Definition copy (dst src : list Todo) : list Todo :=
  take (length dst) src ++ drop (length src) dst.

(** [func (s TodoState) Add(title string) TodoState].  The clock reading
    of [time.Now()] is the extra argument [now]. *)
Definition Add (s : TodoState) (title : string) (now : Time) : TodoState :=
  let newTodo :=
    {| ID := NextID s; Title := title; Completed := false; CreatedAt := now |} in
  let newTodos := make (length (Todos s) + 1) in
  let newTodos := copy newTodos (Todos s) in
  let newTodos := <[length (Todos s) := newTodo]> newTodos in
  {| Todos := newTodos; NextID := GoInt.add (NextID s) 1 |}.

(** [seen[id]] on a [map[int]bool]: a missing key reads as [false]. *)
Definition seen_get (seen : gmap Z bool) (id : Z) : bool :=
  default false (seen !! id).

(** The body shared by the two [for _, todo := range ...] loops of
    [Merge], acting on the pair of locals [(seen, result)]. *)
Definition merge_step (acc : gmap Z bool * list Todo) (todo : Todo)
    : gmap Z bool * list Todo :=
  let '(seen, result) := acc in
  if negb (seen_get seen (ID todo))
  then (<[ID todo := true]> seen, result ++ [todo])
  else (seen, result).

(** [func (s TodoState) Merge(other TodoState) TodoState] *)
Definition Merge (s other : TodoState) : TodoState :=
  let acc := (∅, []) in
  let acc := foldl merge_step acc (Todos s) in
  let acc := foldl merge_step acc (Todos other) in
  let maxID := Z.max (NextID other) (NextID s) in
  {| Todos := acc.2; NextID := maxID |}.

(** The snapshot [NewServer] starts from. *)
Definition NewServer_state : TodoState := {| Todos := []; NextID := 1 |}.

(** The snapshot [NewServerWithIDMultiplier idMult] starts from. *)
Definition NewServerWithIDMultiplier_state (idMult : Z) : TodoState :=
  {| Todos := []; NextID := GoInt.wrap (idMult * 100) |}.

(** Successive [Add] calls, one per (title, clock reading) pair. *)
Definition AddAll (s : TodoState) (reqs : list (string * Time)) : TodoState :=
  foldl (λ st r, Add st r.1 r.2) s reqs.

(** *** Inspection vocabulary used by the statements *)

(** The IDs carried by a sequence of records, in order and as a set. *)
Definition ids (l : list Todo) : list Z := ID <$> l.
Definition idset (l : list Todo) : gset Z := list_to_set (ids l).

(** All records of a sequence that carry a given ID, in order. *)
Definition with_id (id : Z) (l : list Todo) : list Todo :=
  filter (λ t, ID t = id) l.

(** The first-occurrence filter that the two loops of [Merge] compute:
    a record is kept unless its ID was met before ([seen]). *)
Fixpoint keep (seen : gset Z) (l : list Todo) : list Todo :=
  match l with
  | [] => []
  | t :: l' =>
      if decide (ID t ∈ seen) then keep seen l'
      else t :: keep ({[ID t]} ∪ seen) l'
  end.

(** *** [Server.HandleVerify] *)

(** The fields of the JSON answer of [HandleVerify]. *)
Record VerifyResponse := mkVerifyResponse {
  consistent : bool;
  todo_count : Z;
  next_id : Z;
  expected_next_id : Z
}.

(** The body of the duplicate check, on the locals [(consistent, ids)]. *)
Definition verify_step (acc : bool * gmap Z bool) (todo : Todo)
    : bool * gmap Z bool :=
  let '(consistent, ids) := acc in
  let consistent := if seen_get ids (ID todo) then false else consistent in
  (consistent, <[ID todo := true]> ids).

(** [func (s *Server) HandleVerify(w, r)], on the snapshot it reads under
    the shared lock. *)
Definition HandleVerify (s : TodoState) : VerifyResponse :=
  let todos := Todos s in
  let nextID := NextID s in
  let expectedNextID := GoInt.add (Z.of_nat (length todos)) 1 in
  let consistent := (nextID =? expectedNextID)%Z in
  let acc := foldl verify_step (consistent, ∅) todos in
  {| consistent := acc.1;
     todo_count := Z.of_nat (length todos);
     next_id := nextID;
     expected_next_id := expectedNextID |}.

(** The snapshot invariant that [Add] and [Merge] maintain: IDs are
    pairwise distinct and lie below the counter. *)
Definition ids_fresh (s : TodoState) : Prop :=
  NoDup (ids (Todos s)) ∧ Forall (λ id, id < NextID s)%Z (ids (Todos s)).

End httpserver.

(** ** [Add] on slice headers and backing arrays

    The same method once more, now with the slice [Todos] as Go has it: a
    header pointing into a backing array that other headers may share.
    This is the level at which "the receiver is not mutated" has content. *)

Module slicemem.

(** A slice header: the backing array it points into, the offset of its
    first element there, its length and its capacity. *)
Record slice := mkSlice { arr : nat; off : nat; len : nat; cap : nat }.

(** The backing arrays allocated so far, by address. *)
Abbreviation heap := (gmap nat (list httpserver.Todo)).

Record TodoState := mkTodoState {
  Todos : slice;
  NextID : Z
}.

(** The elements a header denotes; [None] for a header that does not
    fit an allocated array, which Go never produces. *)
Definition view (h : heap) (sl : slice) : option (list httpserver.Todo) :=
  a ← h !! arr sl;
  guard (off sl + len sl ≤ length a);;
  Some (take (len sl) (drop (off sl) a)).

(** [make([]Todo, n)]: a fresh array of [n] zero values. *)
Definition make (n : nat) (h : heap) : slice * heap :=
  let p := fresh (dom h) in
  ({| arr := p; off := 0; len := n; cap := n |},
   <[p := replicate n httpserver.zeroTodo]> h).

(** [copy(dst, src)]: the first [min (len dst) (len src)] elements of
    [src] overwrite those of [dst], in [dst]'s backing array. *)
Definition copy (dst src : slice) (h : heap) : heap :=
  match view h src with
  | Some elems =>
      let n := len dst `min` len src in
      alter (λ a, take (off dst) a ++ take n elems ++ drop (off dst + n) a)
            (arr dst) h
  | None => h
  end.

(** [dst[i] = x] *)
Definition store (dst : slice) (i : nat) (x : httpserver.Todo) (h : heap) : heap :=
  alter (<[off dst + i := x]>) (arr dst) h.

(** [func (s TodoState) Add(title string) TodoState] *)
Definition Add (s : TodoState) (title : string) (now : httpserver.Time)
    (h : heap) : TodoState * heap :=
  let newTodo :=
    {| httpserver.ID := NextID s; httpserver.Title := title;
       httpserver.Completed := false; httpserver.CreatedAt := now |} in
  let '(newTodos, h) := make (len (Todos s) + 1) h in
  let h := copy newTodos (Todos s) h in
  let h := store newTodos (len (Todos s)) newTodo h in
  ({| Todos := newTodos; NextID := GoInt.add (NextID s) 1 |}, h).

(** The snapshot value that a state denotes in a heap. *)
Definition snapshot (h : heap) (s : TodoState) : option httpserver.TodoState :=
  l ← view h (Todos s);
  Some {| httpserver.Todos := l; httpserver.NextID := NextID s |}.

End slicemem.

(** ** Package sudokuexample: the grid snapshot *)

Module sudokuexample.

(** [Board [9][9]int]: nine rows of nine cells, [0] meaning empty. *)
Record SudokuState := mkSudokuState { Board : list (list Z) }.

(** The shape that the array type [[9][9]int] fixes. *)
Definition wf_board (b : list (list Z)) : Prop :=
  length b = 9 ∧ Forall (λ r, length r = 9) b.

Definition wf (s : SudokuState) : Prop := wf_board (Board s).

(** The zero value [SudokuState{}]. *)
Definition empty : SudokuState := {| Board := replicate 9 (replicate 9 0%Z) |}.

(** [b[row][col]] *)
Definition cell (b : list (list Z)) (row col : Z) : Z :=
  default 0%Z (b !! Z.to_nat row ≫= (.!! Z.to_nat col)).

(** [b[row][col] = v] *)
Definition set_cell (b : list (list Z)) (row col v : Z) : list (list Z) :=
  alter (<[Z.to_nat col := v]>) (Z.to_nat row) b.

(** [func (s SudokuState) PlaceNumber(row, col, num int) SudokuState] *)
Definition PlaceNumber (s : SudokuState) (row col num : Z) : SudokuState :=
  if (row <? 0)%Z || (row >? 8)%Z || (col <? 0)%Z || (col >? 8)%Z then s
  else if (num <? 0)%Z || (num >? 9)%Z then s
  else if negb (cell (Board s) row col =? 0)%Z then s
  else
    let newBoard := Board s in
    let newBoard := set_cell newBoard row col num in
    {| Board := newBoard |}.

(** The body of the inner loop of [Merge] at [(row, col)]: the four-way
    [if] chain, each branch assigning [newBoard[row][col]]. *)
Definition merge_at (s other : SudokuState) (row : Z)
    (newBoard : list (list Z)) (col : Z) : list (list Z) :=
  let a := cell (Board s) row col in
  let b := cell (Board other) row col in
  if (a =? 0)%Z && negb (b =? 0)%Z then set_cell newBoard row col b
  else if negb (a =? 0)%Z && (b =? 0)%Z then set_cell newBoard row col a
  else if (a =? b)%Z then set_cell newBoard row col a
  else set_cell newBoard row col b.

(** [func (s SudokuState) Merge(other SudokuState) SudokuState]: the two
    nested [for] loops run [row] and [col] over [0 .. 8]. *)
Definition Merge (s other : SudokuState) : SudokuState :=
  let newBoard := Board s in
  let newBoard :=
    foldl (λ nb row, foldl (merge_at s other row) nb (seqZ 0 9))
          newBoard (seqZ 0 9) in
  {| Board := newBoard |}.

(** *** Vocabulary used by the statements *)

Definition in_bounds (row col : Z) : Prop :=
  (0 ≤ row ≤ 8)%Z ∧ (0 ≤ col ≤ 8)%Z.

(** The value domain that [PlaceNumber]'s guard lets through. *)
Definition allowed (num : Z) : Prop := (0 ≤ num ≤ 9)%Z.

(** The truth table of the cell-wise combinator. *)
Definition merge_cell (a b : Z) : Z :=
  if decide (a = 0%Z) then b
  else if decide (b = 0%Z) then a
  else if decide (a = b) then a
  else b.

(** No cell is filled in both boards. *)
Definition cells_disjoint (s o : SudokuState) : Prop :=
  ∀ row col, in_bounds row col →
    cell (Board s) row col = 0%Z ∨ cell (Board o) row col = 0%Z.

(** No cell is filled in both boards with different values. *)
Definition no_conflict (s o : SudokuState) : Prop :=
  ∀ row col, in_bounds row col →
    cell (Board s) row col = 0%Z ∨ cell (Board o) row col = 0%Z ∨
    cell (Board s) row col = cell (Board o) row col.

(** A test of all 81 cells, for checking the two relations above on
    concrete boards. *)
Definition all_cells (test : Z → Z → bool) : bool :=
  forallb (λ row, forallb (test row) (seqZ 0 9)) (seqZ 0 9).

Definition cells_disjointb (s o : SudokuState) : bool :=
  all_cells (λ row col,
    (cell (Board s) row col =? 0)%Z || (cell (Board o) row col =? 0)%Z).

Definition no_conflictb (s o : SudokuState) : bool :=
  all_cells (λ row col,
    (cell (Board s) row col =? 0)%Z || (cell (Board o) row col =? 0)%Z ||
    (cell (Board s) row col =? cell (Board o) row col)%Z).

Definition wfb (s : SudokuState) : bool :=
  (length (Board s) =? 9) && forallb (λ r, length r =? 9) (Board s).

(** *** The inspection methods *)

(** [func (s SudokuState) getRow(row int) []int]: [s.Board[row][:]] *)
Definition getRow (s : SudokuState) (row : Z) : list Z :=
  default [] (Board s !! Z.to_nat row).

(** [func (s SudokuState) getCol(col int) []int] *)
Definition getCol (s : SudokuState) (col : Z) : list Z :=
  let result := replicate 9 0%Z in
  foldl (λ result row, <[Z.to_nat row := cell (Board s) row col]> result)
        result (seqZ 0 9).

(** [func (s SudokuState) getBox(boxRow, boxCol int) []int]: the pair
    threaded through the loops is [(result, idx)]. *)
Definition getBox (s : SudokuState) (boxRow boxCol : Z) : list Z :=
  let result := replicate 9 0%Z in
  let idx := 0%Z in
  let startRow := (boxRow * 3)%Z in
  let startCol := (boxCol * 3)%Z in
  (foldl (λ acc row,
            foldl (λ acc col,
                     (<[Z.to_nat acc.2 := cell (Board s) row col]> acc.1,
                      (acc.2 + 1)%Z))
                  acc (seqZ startCol 3))
         (result, idx) (seqZ startRow 3)).1.

(** [seen[num]] on a [map[int]bool]. *)
Definition seen_num (seen : gmap Z bool) (num : Z) : bool :=
  default false (seen !! num).

(** The loop of [isValidSet] from a given [seen] map; [false] is the
    early [return false]. *)
Fixpoint isValidSet_from (seen : gmap Z bool) (nums : list Z) : bool :=
  match nums with
  | [] => true
  | num :: nums' =>
      if (num =? 0)%Z then isValidSet_from seen nums'
      else if seen_num seen num then false
      else isValidSet_from (<[num := true]> seen) nums'
  end.

(** [func (s SudokuState) isValidSet(nums []int) bool] *)
Definition isValidSet (nums : list Z) : bool := isValidSet_from ∅ nums.

(** [func (s SudokuState) IsValid() bool]: rows, then columns, then the
    nine 3 x 3 boxes; the first failing set returns [false]. *)
Definition IsValid (s : SudokuState) : bool :=
  forallb (λ row, isValidSet (getRow s row)) (seqZ 0 9) &&
  forallb (λ col, isValidSet (getCol s col)) (seqZ 0 9) &&
  forallb (λ boxRow,
             forallb (λ boxCol, isValidSet (getBox s boxRow boxCol)) (seqZ 0 3))
          (seqZ 0 3).

(** [func (s SudokuState) IsSolved() bool] *)
Definition IsSolved (s : SudokuState) : bool :=
  if negb (IsValid s) then false
  else forallb (λ row,
                  forallb (λ col, negb (cell (Board s) row col =? 0)%Z)
                          (seqZ 0 9))
               (seqZ 0 9).

(** [func (s SudokuState) CountFilled() int] *)
Definition CountFilled (s : SudokuState) : Z :=
  let count := 0%Z in
  foldl (λ count row,
           foldl (λ count col,
                    if negb (cell (Board s) row col =? 0)%Z
                    then GoInt.add count 1 else count)
                 count (seqZ 0 9))
        count (seqZ 0 9).

(** Two distinct cells that must not hold the same number: same row,
    same column or same 3 x 3 box. *)
Definition peers (r1 c1 r2 c2 : Z) : Prop :=
  (r1, c1) ≠ (r2, c2) ∧
  (r1 = r2 ∨ c1 = c2 ∨ (r1 `div` 3 = r2 `div` 3 ∧ c1 `div` 3 = c2 `div` 3))%Z.

(** The positions of the grid, row by row. *)
Definition positions : list (Z * Z) :=
  row ← seqZ 0 9; col ← seqZ 0 9; [(row, col)].

(** The number of filled cells, counted over the positions. *)
Definition filled_count (s : SudokuState) : nat :=
  length (filter (λ p, cell (Board s) p.1 p.2 ≠ 0%Z) positions).

End sudokuexample.

(** ** The handlers: read under [RLock], compute off-lock, swap under [Lock]

    [Server.HandlePlace] and [Server.HandleMerge] of both servers and
    [Server.ProcessRequest] run the same seven statements and differ only
    in the pure call in the middle, which is the field [transform] below.
    A Go call either returns or panics; a panic leaves the handler at once,
    since none of these handlers defers anything.  Goroutines interleave at
    statement granularity, and the two lock operations block as
    [sync.RWMutex] does. *)

Module server.

Section Handlers.
Context {Snapshot PanicValue : Type}.

(** What a Go call ends in. *)
Inductive outcome :=
  | Returns (newState : Snapshot)
  | Panics (v : PanicValue).

(** [sync.RWMutex], as far as the handlers use it. *)
Record RWMutex := mkRWMutex { readers : nat; writer : bool }.

(** [type Server struct { state *S; stateMu sync.RWMutex; ... }]: the
    field [state] is the snapshot the pointer refers to; snapshots are
    never written in place, only the pointer is replaced. *)
Record Server := mkServer { state : Snapshot; stateMu : RWMutex }.

(** The statement a goroutine is about to execute, with its locals. *)
Inductive pc :=
  | AtRLock                              (* s.stateMu.RLock() *)
  | AtRead                               (* currentState := *s.state *)
  | AtRUnlock (currentState : Snapshot)  (* s.stateMu.RUnlock() *)
  | AtCall (currentState : Snapshot)     (* newState := f(currentState) *)
  | AtLock (newState : Snapshot)         (* s.stateMu.Lock() *)
  | AtStore (newState : Snapshot)        (* s.state = &newState *)
  | AtUnlock (newState : Snapshot)       (* s.stateMu.Unlock() *)
  | Returned (newState : Snapshot)       (* fell through to the response *)
  | Panicking (v : PanicValue).          (* unwinding into the caller *)

Inductive event :=
  | EvRLock | EvRead | EvRUnlock
  | EvReturn | EvPanic (v : PanicValue)
  | EvLock | EvStore (newState : Snapshot) | EvUnlock.

Record goroutine := mkGoroutine {
  transform : Snapshot → outcome;
  at_pc : pc
}.

Definition goto (g : goroutine) (p : pc) : goroutine :=
  {| transform := transform g; at_pc := p |}.

(** One statement of one goroutine; [None] when it is blocked on the
    lock or has left the handler. *)
Definition step (g : goroutine) (srv : Server)
    : option (event * goroutine * Server) :=
  let mu := stateMu srv in
  match at_pc g with
  | AtRLock =>
      if writer mu then None
      else Some (EvRLock, goto g AtRead,
                 {| state := state srv;
                    stateMu := {| readers := readers mu + 1; writer := writer mu |} |})
  | AtRead => Some (EvRead, goto g (AtRUnlock (state srv)), srv)
  | AtRUnlock currentState =>
      Some (EvRUnlock, goto g (AtCall currentState),
            {| state := state srv;
               stateMu := {| readers := readers mu - 1; writer := writer mu |} |})
  | AtCall currentState =>
      match transform g currentState with
      | Returns newState => Some (EvReturn, goto g (AtLock newState), srv)
      | Panics v => Some (EvPanic v, goto g (Panicking v), srv)
      end
  | AtLock newState =>
      if writer mu || negb (readers mu =? 0) then None
      else Some (EvLock, goto g (AtStore newState),
                 {| state := state srv;
                    stateMu := {| readers := readers mu; writer := true |} |})
  | AtStore newState =>
      Some (EvStore newState, goto g (AtUnlock newState),
            {| state := newState; stateMu := mu |})
  | AtUnlock newState =>
      Some (EvUnlock, goto g (Returned newState),
            {| state := state srv;
               stateMu := {| readers := readers mu; writer := false |} |})
  | Returned _ | Panicking _ => None
  end.

(** A server together with the goroutines currently inside a handler. *)
Record system := mkSystem { srv : Server; pool : list goroutine }.

(** Goroutine [i] executes its next statement. *)
Definition sys_step (i : nat) (sys : system)
    : option ((nat * event) * system) :=
  g ← pool sys !! i;
  '(ev, g', srv') ← step g (srv sys);
  Some ((i, ev), {| srv := srv'; pool := <[i := g']> (pool sys) |}).

(** An execution under a schedule: the goroutine to run at each turn.
    [None] when the schedule picks a goroutine that cannot move. *)
Fixpoint run (sys : system) (sched : list nat)
    : option (list (nat * event) * system) :=
  match sched with
  | [] => Some ([], sys)
  | i :: sched' =>
      '(e, sys') ← sys_step i sys;
      '(tr, sys'') ← run sys' sched';
      Some (e :: tr, sys'')
  end.

(** The events of goroutine [i] in a trace. *)
Definition events_of (i : nat) (tr : list (nat * event)) : list event :=
  (filter (λ e, e.1 = i) tr).*2.

(** The snapshot that the stores of a trace leave behind: the value of
    the last one, or the initial snapshot when there is none. *)
Definition committed (s0 : Snapshot) (tr : list (nat * event)) : Snapshot :=
  foldl (λ cur e, match e.2 with EvStore newState => newState | _ => cur end)
        s0 tr.

(** The statements a goroutine has behind it when it stands at [p]. *)
Definition history (p : pc) : list event :=
  match p with
  | AtRLock => []
  | AtRead => [EvRLock]
  | AtRUnlock _ => [EvRLock; EvRead]
  | AtCall _ => [EvRLock; EvRead; EvRUnlock]
  | AtLock _ => [EvRLock; EvRead; EvRUnlock; EvReturn]
  | AtStore _ => [EvRLock; EvRead; EvRUnlock; EvReturn; EvLock]
  | AtUnlock newState =>
      [EvRLock; EvRead; EvRUnlock; EvReturn; EvLock; EvStore newState]
  | Returned newState =>
      [EvRLock; EvRead; EvRUnlock; EvReturn; EvLock; EvStore newState; EvUnlock]
  | Panicking v => [EvRLock; EvRead; EvRUnlock; EvPanic v]
  end.

(** What the caller of the handler gets to see. *)
Definition observed (g : goroutine) : option outcome :=
  match at_pc g with
  | Returned newState => Some (Returns newState)
  | Panicking v => Some (Panics v)
  | _ => None
  end.

(** [faulttest.IsolatedOperation(operation)]: the deferred [recover]
    turns a panic of [operation] into the pair [(false, panicValue)]. *)
Definition IsolatedOperation (operation : outcome) : bool * option PanicValue :=
  match operation with
  | Returns _ => (true, None)
  | Panics r => (false, Some r)
  end.

(** A goroutine entering the handler with the given transformation. *)
Definition enter (f : Snapshot → outcome) : goroutine :=
  {| transform := f; at_pc := AtRLock |}.

(** Whether a goroutine stands between [RLock] and [RUnlock], and between
    [Lock] and [Unlock]. *)
Definition holds_read (p : pc) : nat :=
  match p with AtRead | AtRUnlock _ => 1 | _ => 0 end.

Definition holds_write (p : pc) : nat :=
  match p with AtStore _ | AtUnlock _ => 1 | _ => 0 end.

Definition readers_in (gs : list goroutine) : nat :=
  sum_list (holds_read ∘ at_pc <$> gs).

Definition writers_in (gs : list goroutine) : nat :=
  sum_list (holds_write ∘ at_pc <$> gs).

(** The mutex records exactly the goroutines that hold it. *)
Definition lock_consistent (sys : system) : Prop :=
  readers (stateMu (srv sys)) = readers_in (pool sys) ∧
  writers_in (pool sys) = (if writer (stateMu (srv sys)) then 1 else 0) ∧
  (writer (stateMu (srv sys)) = true → readers (stateMu (srv sys)) = 0).

(** The goroutine has left the handler. *)
Definition finished (g : goroutine) : Prop :=
  match at_pc g with Returned _ | Panicking _ => True | _ => False end.

End Handlers.

Arguments outcome : clear implicits.
Arguments pc : clear implicits.
Arguments event : clear implicits.
Arguments goroutine : clear implicits.
Arguments Server : clear implicits.
Arguments system : clear implicits.

(** [HandlePlace] of the Sudoku server, for a decoded request. *)
Definition HandlePlace {PanicValue} (row col num : Z)
    : goroutine sudokuexample.SudokuState PanicValue :=
  enter (λ currentState,
           Returns (sudokuexample.PlaceNumber currentState row col num)).

(** [HandleMerge] of the Sudoku server, for a decoded incoming state. *)
Definition HandleMerge {PanicValue} (incomingState : sudokuexample.SudokuState)
    : goroutine sudokuexample.SudokuState PanicValue :=
  enter (λ currentState,
           Returns (sudokuexample.Merge currentState incomingState)).

(** [ProcessRequest] of the todo server. *)
Definition ProcessRequest {PanicValue} (title : string) (now : httpserver.Time)
    : goroutine httpserver.TodoState PanicValue :=
  enter (λ currentState, Returns (httpserver.Add currentState title now)).

End server.

(** ** Package faulttest: the immutable [State] and the shared
       [CriticalState] *)

Module faulttest.

(** What a method call ends in: a value, or the runtime panic that Go
    raises when a nil [*State] is dereferenced. *)
Inductive result (A : Type) :=
  | Ok (a : A)
  | NilDereference.
Arguments Ok {A} a.
Arguments NilDereference {A}.

(** [type State struct { data map[string]string }].  A nil map reads like
    the empty map, so [data] is the finite map of its entries. *)
Record State := mkState { data : gmap string string }.

(** A [*State]: [None] is the nil pointer. *)
Abbreviation StatePtr := (option State).

(** [for k, v := range src { dst[k] = v }], also [maps.Copy(dst, src)]. *)
Definition copy_entries (dst src : gmap string string) : gmap string string :=
  map_fold (λ k v dst, <[k := v]> dst) dst src.

(** [func NewState(data map[string]string) *State] *)
Definition NewState (data : gmap string string) : StatePtr :=
  let copied := ∅ in
  let copied := copy_entries copied data in
  Some {| data := copied |}.

(** [func (s *State) Get(key string) (string, bool)] *)
Definition Get (s : StatePtr) (key : string) : string * bool :=
  match s with
  | None => ("", false)
  | Some st =>
      match data st !! key with
      | Some val => (val, true)
      | None => ("", false)
      end
  end.

(** [func (s *State) Set(key, value string) *State] ([Set] is reserved
    in Rocq): reads [s.data] before anything else, so a nil receiver
    panics. *)
Definition Set_ (s : StatePtr) (key value : string) : result StatePtr :=
  match s with
  | None => NilDereference
  | Some st =>
      let newData := ∅ in
      let newData := copy_entries newData (data st) in
      let newData := <[key := value]> newData in
      Ok (Some {| data := newData |})
  end.

(** [func (s *State) Merge(other *State) *State]: a nil [other] returns
    the receiver before it is dereferenced. *)
Definition Merge (s other : StatePtr) : result StatePtr :=
  match other with
  | None => Ok s
  | Some o =>
      match s with
      | None => NilDereference
      | Some st =>
          let newData := ∅ in
          let newData := copy_entries newData (data st) in
          let newData := copy_entries newData (data o) in
          Ok (Some {| data := newData |})
      end
  end.

(** [func (s *State) Len() int] *)
Definition Len (s : StatePtr) : Z :=
  match s with
  | None => 0
  | Some st => Z.of_nat (size (data st))
  end.

(** [func SafeUpdate(oldState map[string]string, key, value string)] *)
Definition SafeUpdate (oldState : gmap string string) (key value : string)
    : gmap string string :=
  let newState := ∅ in
  let newState := copy_entries newState oldState in
  <[key := value]> newState.

(** [func SafeMerge(state1, state2 map[string]string)] *)
Definition SafeMerge (state1 state2 : gmap string string) : gmap string string :=
  let result := ∅ in
  let result := copy_entries result state1 in
  copy_entries result state2.







End faulttest.

(* ================================================================== *)
(** * Part II: properties                                              *)
(* ================================================================== *)

(** ** Go's [int] *)

Section GoIntFacts.
Import GoInt.

Lemma wrap_in_range z : in_range z → wrap z = z.
Proof.
  unfold in_range, min_int, max_int, wrap. intros Hz.
  rewrite Z.mod_small; lia.
Qed.

Lemma add_no_overflow a b :
  in_range (a + b) → add a b = (a + b)%Z.
Proof. apply wrap_in_range. Qed.

Lemma add_one_max_int : add max_int 1 = min_int.
Proof. reflexivity. Qed.

Lemma wrap_range z : in_range (wrap z).
Proof.
  unfold in_range, min_int, max_int, wrap.
  pose proof (Z.mod_pos_bound (z + 2 ^ 63) (2 ^ 64)). lia.
Qed.

End GoIntFacts.

(** ** The record-collection snapshot *)

Section TodoFacts.
Import httpserver.
Implicit Types (l k : list Todo) (X Y : gset Z) (t : Todo) (id : Z).

(** *** [Add] appends *)

Lemma copy_into_make l :
  copy (make (length l + 1)) l = l ++ [zeroTodo].
Proof.
  unfold copy, make. rewrite length_replicate.
  rewrite take_ge by lia. rewrite drop_replicate.
  by replace (length l + 1 - length l) with 1 by lia.
Qed.

Lemma Add_Todos s title now :
  Todos (Add s title now) =
  Todos s ++ [mkTodo (NextID s) title false now].
Proof.
  unfold Add; simpl. rewrite copy_into_make.
  rewrite insert_app_r_alt by lia.
  by rewrite Nat.sub_diag.
Qed.

Lemma Add_NextID s title now :
  NextID (Add s title now) = GoInt.add (NextID s) 1.
Proof. reflexivity. Qed.

(** *** The loops of [Merge] compute [keep] *)

Lemma foldl_merge_step l : ∀ (seen : gmap Z bool) X (result : list Todo),
  (∀ id, seen_get seen id = true ↔ id ∈ X) →
  (foldl merge_step (seen, result) l).2 = result ++ keep X l ∧
  (∀ id, seen_get (foldl merge_step (seen, result) l).1 id = true
         ↔ id ∈ idset l ∪ X).
Proof.
  induction l as [|t l IH]; intros seen X result Hseen; simpl.
  - split; [by rewrite app_nil_r|]. intros id. rewrite Hseen.
    unfold idset; simpl. set_solver.
  - destruct (seen_get seen (ID t)) eqn:Hget; simpl.
    + apply Hseen in Hget. rewrite decide_True by done.
      destruct (IH seen X result Hseen) as [-> Hs]. split; [done|].
      intros id. rewrite Hs. unfold idset, ids; simpl. set_solver.
    + assert (ID t ∉ X) as Hnot.
      { intros Hin. apply Hseen in Hin. congruence. }
      rewrite decide_False by done.
      destruct (IH (<[ID t := true]> seen) ({[ID t]} ∪ X) (result ++ [t]))
        as [-> Hs].
      { intros id. unfold seen_get. rewrite lookup_insert.
        case_decide as Heq; simpl.
        - subst. set_solver.
        - fold (seen_get seen id). rewrite Hseen. set_solver. }
      split; [by rewrite <- app_assoc|].
      intros id. rewrite Hs. unfold idset, ids; simpl. set_solver.
Qed.

Lemma seen_get_empty id : seen_get ∅ id = true ↔ id ∈ (∅ : gset Z).
Proof. unfold seen_get. rewrite lookup_empty. simpl. set_solver. Qed.

Lemma Merge_Todos a b : Todos (Merge a b) = keep ∅ (Todos a ++ Todos b).
Proof.
  unfold Merge; simpl. rewrite <- foldl_app.
  by destruct (foldl_merge_step (Todos a ++ Todos b) ∅ ∅ [] seen_get_empty)
    as [-> _].
Qed.

Lemma Merge_NextID a b : NextID (Merge a b) = Z.max (NextID a) (NextID b).
Proof. unfold Merge; simpl. apply Z.max_comm. Qed.

(** *** Algebra of [keep] *)

(** Equality of two ID sets, by cases on whether the element is [a]. *)
Local Ltac idset_cases a :=
  apply set_eq; intros ?id'; destruct (decide (id' = a)); set_solver.

Lemma idset_nil : idset [] = ∅.
Proof. reflexivity. Qed.

Lemma idset_cons t l : idset (t :: l) = {[ID t]} ∪ idset l.
Proof. reflexivity. Qed.

Lemma idset_app l k : idset (l ++ k) = idset l ∪ idset k.
Proof. unfold idset, ids. rewrite fmap_app. apply list_to_set_app_L. Qed.

Lemma elem_of_idset id l : id ∈ idset l ↔ ∃ t, t ∈ l ∧ ID t = id.
Proof.
  unfold idset, ids. rewrite elem_of_list_to_set, list_elem_of_fmap.
  naive_solver.
Qed.

Lemma keep_proper X Y l : X = Y → keep X l = keep Y l.
Proof. by intros ->. Qed.

Lemma keep_app l : ∀ X k,
  keep X (l ++ k) = keep X l ++ keep (idset l ∪ X) k.
Proof.
  induction l as [|t l IH]; intros X k; simpl.
  - apply keep_proper. rewrite idset_nil. set_solver.
  - case_decide as Hin.
    + rewrite IH. f_equal. apply keep_proper. rewrite idset_cons. set_solver.
    + simpl. f_equal. rewrite IH. f_equal. apply keep_proper.
      rewrite idset_cons. set_solver.
Qed.

Lemma keep_keep l : ∀ X Y, keep X (keep Y l) = keep (X ∪ Y) l.
Proof.
  induction l as [|t l IH]; intros X Y; simpl; [done|].
  destruct (decide (ID t ∈ Y)) as [HY|HY].
  - rewrite decide_True by set_solver. apply IH.
  - simpl. destruct (decide (ID t ∈ X)) as [HX|HX].
    + rewrite decide_True by set_solver. rewrite IH.
      apply keep_proper. set_solver.
    + rewrite decide_False by set_solver. f_equal. rewrite IH.
      apply keep_proper. set_solver.
Qed.

Lemma idset_keep l : ∀ X, idset (keep X l) = idset l ∖ X.
Proof.
  induction l as [|t l IH]; intros X; simpl.
  - rewrite idset_nil. set_solver.
  - case_decide as Hin.
    + rewrite IH, idset_cons. set_solver.
    + rewrite !idset_cons, IH. idset_cases (ID t).
Qed.

Lemma keep_disjoint l : ∀ X Y, idset l ## X → keep (X ∪ Y) l = keep Y l.
Proof.
  induction l as [|t l IH]; intros X Y Hdisj; simpl; [done|].
  rewrite idset_cons in Hdisj.
  destruct (decide (ID t ∈ Y)) as [HY|HY].
  - rewrite decide_True by set_solver. apply IH. set_solver.
  - rewrite decide_False by set_solver. f_equal.
    rewrite <- (IH X ({[ID t]} ∪ Y)) by set_solver.
    apply keep_proper. set_solver.
Qed.

Lemma keep_covered l : ∀ X, idset l ⊆ X → keep X l = [].
Proof.
  induction l as [|t l IH]; intros X Hsub; simpl; [done|].
  rewrite idset_cons in Hsub.
  rewrite decide_True by set_solver. apply IH. set_solver.
Qed.

Lemma keep_NoDup_id l : ∀ X, NoDup (ids l) → idset l ## X → keep X l = l.
Proof.
  induction l as [|t l IH]; intros X Hnd Hdisj; simpl; [done|].
  rewrite idset_cons in Hdisj. unfold ids in Hnd; simpl in Hnd.
  apply NoDup_cons in Hnd as [Hnotin Hnd].
  rewrite decide_False by set_solver. f_equal. apply IH; [done|].
  assert (ID t ∉ idset l) by (unfold idset, ids; set_solver).
  set_solver.
Qed.

Lemma elem_of_keep t l : ∀ X, t ∈ keep X l → t ∈ l ∧ ID t ∉ X.
Proof.
  induction l as [|t' l IH]; intros X; simpl; [by intros ?%elem_of_nil|].
  case_decide as Hin.
  - intros Hk. apply IH in Hk as [??]. set_solver.
  - intros Hk. apply elem_of_cons in Hk as [->|Hk]; [set_solver|].
    apply IH in Hk as [??]. set_solver.
Qed.

Lemma NoDup_ids_keep l : ∀ X, NoDup (ids (keep X l)).
Proof.
  induction l as [|t l IH]; intros X; simpl; [constructor|].
  case_decide as Hin; [apply IH|].
  unfold ids; simpl. apply NoDup_cons. split; [|apply IH].
  intros Hin'. apply list_elem_of_fmap in Hin' as (t' & Heq & Hk).
  apply elem_of_keep in Hk as [_ Hnot]. set_solver.
Qed.

(** The records of the result that carry [id]: none when [id] was seen
    before, otherwise the first such record of the input and only it. *)
Lemma with_id_keep id l : ∀ X,
  with_id id (keep X l) =
  if decide (id ∈ X) then [] else take 1 (with_id id l).
Proof.
  unfold with_id.
  induction l as [|t l IH]; intros X; simpl.
  - by case_decide.
  - destruct (decide (ID t ∈ X)) as [HX|HX].
    + rewrite IH. case_decide as Hid; [done|].
      rewrite filter_cons_False; [done|]. by intros <-.
    + rewrite !filter_cons. destruct (decide (ID t = id)) as [Heq|Hne].
      * subst id. rewrite decide_False by done. simpl. f_equal.
        rewrite IH. rewrite decide_True by set_solver. by destruct (filter _ l).
      * rewrite IH. destruct (decide (id ∈ X)) as [HidX|HidX].
        -- by rewrite decide_True by set_solver.
        -- by rewrite decide_False by set_solver.
Qed.

Lemma with_id_nonempty id l :
  id ∈ idset l → ∃ t k, with_id id l = t :: k.
Proof.
  intros (t & Hin & Hid)%elem_of_idset.
  assert (t ∈ with_id id l) as Ht by (by apply list_elem_of_filter).
  destruct (with_id id l) as [|t' k]; [by apply elem_of_nil in Ht|eauto].
Qed.

Lemma with_id_empty id l : id ∉ idset l → with_id id l = [].
Proof.
  intros Hnot. destruct (with_id id l) as [|t k] eqn:Hw; [done|].
  assert (t ∈ with_id id l) as Ht by (rewrite Hw; left).
  apply list_elem_of_filter in Ht as [Hid Hin].
  destruct Hnot. apply elem_of_idset; eauto.
Qed.

Lemma with_id_Merge id a b :
  with_id id (Todos (Merge a b)) =
  take 1 (with_id id (Todos a) ++ with_id id (Todos b)).
Proof.
  rewrite Merge_Todos, with_id_keep. rewrite decide_False by set_solver.
  unfold with_id. by rewrite filter_app.
Qed.

(** Filtering an operand first changes nothing: a later occurrence of an
    ID is dropped either way. *)
Lemma keep_absorb_l X l k : keep X (keep X l ++ k) = keep X (l ++ k).
Proof.
  rewrite !keep_app, keep_keep, idset_keep. f_equal.
  - apply keep_proper. set_solver.
  - apply keep_proper. apply set_eq. intros id.
    destruct (decide (id ∈ X)); set_solver.
Qed.

Lemma keep_absorb_r X l k : keep X (l ++ keep X k) = keep X (l ++ k).
Proof.
  rewrite !keep_app, keep_keep. f_equal. apply keep_proper. set_solver.
Qed.

(** *** Laws of [Merge] on the record variant *)

Lemma Todo_Merge_assoc a b c : Merge (Merge a b) c = Merge a (Merge b c).
Proof.
  assert (∀ x y, x = y → ∀ n m, n = m → mkTodoState x n = mkTodoState y m)
    as Hext by (by intros ?? -> ?? ->).
  destruct (Merge (Merge a b) c) as [l1 n1] eqn:E1.
  destruct (Merge a (Merge b c)) as [l2 n2] eqn:E2.
  apply Hext.
  - change l1 with (Todos (mkTodoState l1 n1)).
    change l2 with (Todos (mkTodoState l2 n2)).
    rewrite <- E1, <- E2. rewrite !Merge_Todos.
    by rewrite keep_absorb_l, keep_absorb_r, app_assoc.
  - change n1 with (NextID (mkTodoState l1 n1)).
    change n2 with (NextID (mkTodoState l2 n2)).
    rewrite <- E1, <- E2. rewrite !Merge_NextID. lia.
Qed.

Lemma Todo_Merge_idemp a : NoDup (ids (Todos a)) → Merge a a = a.
Proof.
  intros Hnd. destruct a as [l n].
  assert (Todos (Merge (mkTodoState l n) (mkTodoState l n)) = l) as Hl.
  { rewrite Merge_Todos; simpl. rewrite keep_app.
    rewrite keep_NoDup_id by (done || set_solver).
    rewrite keep_covered by set_solver. apply app_nil_r. }
  assert (NextID (Merge (mkTodoState l n) (mkTodoState l n)) = n) as Hn.
  { rewrite Merge_NextID; simpl. lia. }
  destruct (Merge _ _); simpl in *; congruence.
Qed.

Lemma Todo_Merge_comm_perm a b :
  idset (Todos a) ## idset (Todos b) →
  Todos (Merge a b) ≡ₚ Todos (Merge b a).
Proof.
  intros Hdisj. rewrite !Merge_Todos, !keep_app.
  rewrite (keep_disjoint (Todos b) (idset (Todos a)) ∅) by set_solver.
  rewrite (keep_disjoint (Todos a) (idset (Todos b)) ∅) by set_solver.
  apply Permutation_app_comm.
Qed.

(** When every ID of the right operand already occurs in the left one,
    the right operand contributes nothing. *)
Lemma Merge_collision a b :
  NoDup (ids (Todos a)) → idset (Todos b) ⊆ idset (Todos a) →
  Todos (Merge a b) = Todos a.
Proof.
  intros Hnd Hsub. rewrite Merge_Todos, keep_app.
  rewrite keep_NoDup_id by (done || set_solver).
  rewrite keep_covered by set_solver. apply app_nil_r.
Qed.

End TodoFacts.

(** ** The grid snapshot *)

Section SudokuFacts.
Import sudokuexample.
Implicit Types (b nb : list (list Z)) (s o : SudokuState) (row col r c v : Z).

(** *** Reading and writing one cell of a 9 x 9 array *)

Lemma wf_board_row b row :
  wf_board b → (0 ≤ row ≤ 8)%Z →
  ∃ cells, b !! Z.to_nat row = Some cells ∧ length cells = 9.
Proof.
  intros [Hlen Hrows] Hrow.
  destruct (lookup_lt_is_Some_2 b (Z.to_nat row)) as [cells Hcells]; [lia|].
  exists cells. split; [done|].
  by apply (Forall_lookup_1 _ _ _ _ Hrows Hcells).
Qed.

Lemma wf_board_set_cell b row col v :
  wf_board b → wf_board (set_cell b row col v).
Proof.
  intros [Hlen Hrows]. unfold set_cell. split.
  - by rewrite length_alter.
  - apply Forall_alter; [done|]. intros cells _ Hc.
    by rewrite length_insert.
Qed.

Lemma cell_set_cell b row col v r c :
  wf_board b → in_bounds row col → in_bounds r c →
  cell (set_cell b row col v) r c =
  if decide (r = row ∧ c = col) then v else cell b r c.
Proof.
  intros Hwf [Hrow Hcol] [Hr Hc]. unfold cell, set_cell.
  destruct (wf_board_row b row Hwf Hrow) as (cells & Hcells & Hlen).
  rewrite list_lookup_alter.
  destruct (decide (Z.to_nat row = Z.to_nat r)) as [Heq|Hne].
  - assert (r = row) as -> by lia. rewrite Hcells; simpl.
    destruct (decide (c = col)) as [->|Hcne].
    + rewrite decide_True by done.
      by rewrite list_lookup_insert_eq by lia.
    + rewrite decide_False by tauto.
      by rewrite list_lookup_insert_ne by lia.
  - rewrite decide_False; [done|]. intros [-> _]. done.
Qed.

(** Two 9 x 9 arrays with the same cells are the same array. *)
Lemma board_ext b1 b2 :
  wf_board b1 → wf_board b2 →
  (∀ r c, in_bounds r c → cell b1 r c = cell b2 r c) → b1 = b2.
Proof.
  intros Hwf1 Hwf2 Hcells.
  apply (list_eq_same_length _ _ 9); [apply Hwf2|apply Hwf1|].
  intros i cs1 cs2 Hi H1 H2.
  assert (length cs1 = 9) as Hl1.
  { destruct Hwf1 as [_ Hrows]. apply (Forall_lookup_1 _ _ _ _ Hrows H1). }
  assert (length cs2 = 9) as Hl2.
  { destruct Hwf2 as [_ Hrows]. apply (Forall_lookup_1 _ _ _ _ Hrows H2). }
  apply (list_eq_same_length _ _ 9); [done..|].
  intros j x y Hj Hx Hy.
  specialize (Hcells (Z.of_nat i) (Z.of_nat j)).
  unfold cell, in_bounds in Hcells. rewrite !Nat2Z.id in Hcells.
  rewrite H1, H2 in Hcells; simpl in Hcells. rewrite Hx, Hy in Hcells.
  apply Hcells. lia.
Qed.

Lemma SudokuState_ext s o :
  wf s → wf o →
  (∀ r c, in_bounds r c → cell (Board s) r c = cell (Board o) r c) → s = o.
Proof.
  destruct s as [b1], o as [b2]; simpl. unfold wf; simpl.
  intros ???. f_equal. by apply board_ext.
Qed.

(** *** The loops of [Merge] *)

(** Whatever the branch taken, the inner loop body writes the value
    of the truth table into [newBoard[row][col]]. *)
Lemma merge_at_set_cell s o row nb col :
  merge_at s o row nb col =
  set_cell nb row col
    (merge_cell (cell (Board s) row col) (cell (Board o) row col)).
Proof.
  unfold merge_at, merge_cell.
  generalize (cell (Board s) row col), (cell (Board o) row col).
  intros a b. repeat case_decide;
    repeat match goal with
           | |- context [Z.eqb ?x ?y] => destruct (Z.eqb_spec x y)
           end; simpl; congruence.
Qed.

Section Fill.
(** A pass that writes [g row col] into every visited cell. *)
Variable g : Z → Z → Z.

Let fill_row (row : Z) nb (cols : list Z) :=
  foldl (λ nb col, set_cell nb row col (g row col)) nb cols.

Let fill nb (rows cols : list Z) :=
  foldl (λ nb row, fill_row row nb cols) nb rows.

Lemma fill_row_spec row cols : ∀ nb,
  wf_board nb → (0 ≤ row ≤ 8)%Z → Forall (λ c, 0 ≤ c ≤ 8)%Z cols →
  wf_board (fill_row row nb cols) ∧
  ∀ r c, in_bounds r c →
    cell (fill_row row nb cols) r c =
    if decide (r = row ∧ c ∈ cols) then g r c else cell nb r c.
Proof.
  induction cols as [|col cols IH]; intros nb Hwf Hrow Hcols; simpl.
  - split; [done|]. intros r c _. rewrite decide_False; [done|].
    intros [_ ?%elem_of_nil]. done.
  - apply Forall_cons in Hcols as [Hcol Hcols].
    destruct (IH (set_cell nb row col (g row col))) as [Hwf' Hcell];
      [by apply wf_board_set_cell|done..|].
    split; [done|]. intros r c Hrc. rewrite Hcell by done.
    rewrite cell_set_cell by done.
    destruct (decide (r = row ∧ c ∈ cols)) as [[-> Hin]|Hn1].
    + rewrite decide_True; [done|]. split; [done|by right].
    + destruct (decide (r = row ∧ c = col)) as [[-> ->]|Hn2].
      * rewrite decide_True; [done|]. split; [done|by left].
      * rewrite decide_False; [done|].
        intros [-> [->|?]%elem_of_cons]; tauto.
Qed.

Lemma fill_spec rows cols : ∀ nb,
  wf_board nb → Forall (λ r, 0 ≤ r ≤ 8)%Z rows →
  Forall (λ c, 0 ≤ c ≤ 8)%Z cols →
  wf_board (fill nb rows cols) ∧
  ∀ r c, in_bounds r c →
    cell (fill nb rows cols) r c =
    if decide (r ∈ rows ∧ c ∈ cols) then g r c else cell nb r c.
Proof.
  induction rows as [|row rows IH]; intros nb Hwf Hrows Hcols; simpl.
  - split; [done|]. by intros r c _.
  - apply Forall_cons in Hrows as [Hrow Hrows].
    destruct (fill_row_spec row cols nb) as [Hwf1 Hcell1]; [done..|].
    destruct (IH (fill_row row nb cols)) as [Hwf' Hcell]; [done..|].
    split; [done|]. intros r c Hrc. rewrite Hcell, Hcell1 by done.
    destruct (decide (r ∈ rows ∧ c ∈ cols)) as [[Hr Hc]|Hn1].
    + rewrite decide_True; [done|]. split; [by right|done].
    + destruct (decide (r = row ∧ c ∈ cols)) as [[-> Hc]|Hn2].
      * rewrite decide_True; [done|]. split; [by left|done].
      * rewrite decide_False; [done|].
        intros [[->|?]%elem_of_cons ?]; tauto.
Qed.

End Fill.

Lemma foldl_pointwise {A B} (f f' : A → B → A) (l : list B) : ∀ x,
  (∀ x y, f x y = f' x y) → foldl f x l = foldl f' x l.
Proof.
  induction l as [|y l IH]; intros x Hff'; simpl; [done|].
  rewrite Hff'. by apply IH.
Qed.

Lemma seqZ_0_9_bounds : Forall (λ z, 0 ≤ z ≤ 8)%Z (seqZ 0 9).
Proof. apply Forall_forall. intros z Hz%elem_of_seqZ. lia. Qed.

Lemma in_bounds_seqZ r c :
  in_bounds r c → r ∈ seqZ 0 9 ∧ c ∈ seqZ 0 9.
Proof. intros [??]. rewrite !elem_of_seqZ. lia. Qed.

Lemma Merge_spec s o :
  wf s →
  wf (Merge s o) ∧
  ∀ r c, in_bounds r c →
    cell (Board (Merge s o)) r c =
    merge_cell (cell (Board s) r c) (cell (Board o) r c).
Proof.
  intros Hwf. unfold wf, Merge. cbn [Board].
  set (g := λ r c, merge_cell (cell (Board s) r c) (cell (Board o) r c)).
  rewrite (foldl_pointwise _
    (λ nb row, foldl (λ nb col, set_cell nb row col (g row col)) nb (seqZ 0 9))).
  2:{ intros nb row. apply foldl_pointwise. intros nb' col.
      apply merge_at_set_cell. }
  destruct (fill_spec g (seqZ 0 9) (seqZ 0 9) (Board s) Hwf
              seqZ_0_9_bounds seqZ_0_9_bounds) as [Hwf' Hcell].
  split; [done|]. intros r c Hrc. rewrite Hcell by done.
  by rewrite decide_True by (by apply in_bounds_seqZ).
Qed.

Lemma Merge_wf s o : wf s → wf (Merge s o).
Proof. intros Hwf. by apply Merge_spec. Qed.

Lemma Merge_cell s o r c :
  wf s → in_bounds r c →
  cell (Board (Merge s o)) r c =
  merge_cell (cell (Board s) r c) (cell (Board o) r c).
Proof. intros Hwf. by apply Merge_spec. Qed.

(** *** The truth table *)

(** The four rows of the table amount to: the right value wins unless
    the right cell is empty. *)
Lemma merge_cell_right_biased (a b : Z) :
  merge_cell a b = if decide (b = 0%Z) then a else b.
Proof. unfold merge_cell. repeat case_decide; congruence. Qed.

Lemma merge_cell_assoc (a b c : Z) :
  merge_cell (merge_cell a b) c = merge_cell a (merge_cell b c).
Proof. rewrite !merge_cell_right_biased. repeat case_decide; congruence. Qed.

Lemma merge_cell_idemp (a : Z) : merge_cell a a = a.
Proof. rewrite merge_cell_right_biased. by case_decide. Qed.

Lemma merge_cell_comm (a b : Z) :
  a = 0%Z ∨ b = 0%Z ∨ a = b → merge_cell a b = merge_cell b a.
Proof.
  rewrite !merge_cell_right_biased. intros [?|[?|?]];
    repeat case_decide; congruence.
Qed.

(** *** Laws of [Merge] on the grid variant *)

Lemma Sudoku_Merge_assoc s o p :
  wf s → wf o → Merge (Merge s o) p = Merge s (Merge o p).
Proof.
  intros Hs Ho.
  apply SudokuState_ext; [by do 2 apply Merge_wf|by apply Merge_wf|].
  intros r c Hrc.
  rewrite !Merge_cell by (done || by apply Merge_wf).
  apply merge_cell_assoc.
Qed.

Lemma Sudoku_Merge_idemp s : wf s → Merge s s = s.
Proof.
  intros Hs. apply SudokuState_ext; [by apply Merge_wf|done|].
  intros r c Hrc. rewrite Merge_cell by done. apply merge_cell_idemp.
Qed.

Lemma Sudoku_Merge_comm s o :
  wf s → wf o → no_conflict s o → Merge s o = Merge o s.
Proof.
  intros Hs Ho Hnc. apply SudokuState_ext; [by apply Merge_wf..|].
  intros r c Hrc. rewrite !Merge_cell by done.
  apply merge_cell_comm, Hnc, Hrc.
Qed.

(** *** [PlaceNumber] *)

Lemma PlaceNumber_rejects s row col num :
  ¬ in_bounds row col ∨ ¬ allowed num ∨ cell (Board s) row col ≠ 0%Z →
  PlaceNumber s row col num = s.
Proof.
  unfold PlaceNumber, in_bounds, allowed. intros Hrej. rewrite !Z.gtb_ltb.
  repeat match goal with
         | |- context [Z.ltb ?x ?y] => destruct (Z.ltb_spec x y)
         | |- context [Z.eqb ?x ?y] => destruct (Z.eqb_spec x y)
         end; simpl; try done.
  exfalso. destruct Hrej as [H'|[H'|H']]; apply H'; lia.
Qed.

Lemma PlaceNumber_accepts s row col num :
  in_bounds row col → allowed num → cell (Board s) row col = 0%Z →
  PlaceNumber s row col num = {| Board := set_cell (Board s) row col num |}.
Proof.
  unfold PlaceNumber, in_bounds, allowed. intros [??] ? Hcell.
  rewrite Hcell, !Z.gtb_ltb.
  repeat match goal with
         | |- context [Z.ltb ?x ?y] => destruct (Z.ltb_spec x y)
         end; simpl; try done; lia.
Qed.

Lemma PlaceNumber_wf s row col num : wf s → wf (PlaceNumber s row col num).
Proof.
  intros Hwf. unfold PlaceNumber.
  repeat case_match; try done. by apply wf_board_set_cell.
Qed.

(** Writing the value a cell already holds gives the same array. *)
Lemma set_cell_same b row col :
  wf_board b → in_bounds row col →
  set_cell b row col (cell b row col) = b.
Proof.
  intros Hwf Hrc. apply board_ext; [by apply wf_board_set_cell|done|].
  intros r c Hrc'. rewrite cell_set_cell by done.
  case_decide as Heq; [|done]. by destruct Heq as [-> ->].
Qed.

(** *** Checking the side conditions on concrete boards *)

Lemma all_cells_spec test row col :
  all_cells test = true → in_bounds row col → test row col = true.
Proof.
  unfold all_cells. rewrite forallb_forall. intros Hall Hrc.
  apply in_bounds_seqZ in Hrc as [Hr Hc].
  apply list_elem_of_In, Hall in Hr. rewrite forallb_forall in Hr.
  by apply Hr, list_elem_of_In.
Qed.

Lemma cells_disjointb_true s o : cells_disjointb s o = true → cells_disjoint s o.
Proof.
  intros Hb row col Hrc. apply (all_cells_spec _ _ _ Hb) in Hrc.
  apply orb_true_iff in Hrc as [?%Z.eqb_eq|?%Z.eqb_eq]; auto.
Qed.

Lemma no_conflictb_true s o : no_conflictb s o = true → no_conflict s o.
Proof.
  intros Hb row col Hrc. apply (all_cells_spec _ _ _ Hb) in Hrc.
  apply orb_true_iff in Hrc as [Hrc|?%Z.eqb_eq]; [|auto].
  apply orb_true_iff in Hrc as [?%Z.eqb_eq|?%Z.eqb_eq]; auto.
Qed.

Lemma wfb_true s : wfb s = true → wf s.
Proof.
  unfold wfb, wf, wf_board. intros [Hl Hr]%andb_true_iff.
  apply Nat.eqb_eq in Hl. split; [done|].
  apply Forall_forall. intros r Hin. rewrite forallb_forall in Hr.
  by apply Nat.eqb_eq, Hr, list_elem_of_In.
Qed.

End SudokuFacts.

(** ** [Add] in memory *)

Section SliceFacts.
Import slicemem.
Implicit Types (h : heap) (sl : slice) (s : TodoState).

Lemma make_fresh n h : h !! arr (make n h).1 = None.
Proof. simpl. apply not_elem_of_dom, is_fresh. Qed.

(** Every array that exists before [Add] is the same array after it: the
    only writes go to the array that [make] has just allocated. *)
Lemma Add_frame s title now h p :
  p ∈ dom h → (Add s title now h).2 !! p = h !! p.
Proof.
  intros Hp. unfold Add, store, copy, make; simpl.
  assert (fresh (dom h) ≠ p) as Hne.
  { intros <-. by apply (is_fresh (dom h)). }
  rewrite lookup_alter_ne by done.
  case_match; [rewrite lookup_alter_ne by done|]; by rewrite lookup_insert_ne.
Qed.

Lemma view_frame h h' sl :
  is_Some (h !! arr sl) → (∀ p, p ∈ dom h → h' !! p = h !! p) →
  view h' sl = view h sl.
Proof.
  intros Hsome Hframe. unfold view.
  by rewrite Hframe by (by apply elem_of_dom).
Qed.

Lemma view_Some_inv h sl l :
  view h sl = Some l → is_Some (h !! arr sl) ∧ length l = len sl.
Proof.
  unfold view. destruct (h !! arr sl) as [a|]; simpl; [|done].
  case_guard; simpl; [|done]. intros [= <-]. split; [eauto|].
  rewrite length_take, length_drop. lia.
Qed.

(** The new slice holds the receiver's elements followed by the new
    record. *)
Lemma Add_view s title now h l :
  view h (Todos s) = Some l →
  view (Add s title now h).2 (Todos (Add s title now h).1) =
  Some (l ++ [httpserver.mkTodo (NextID s) title false now]).
Proof.
  intros Hview. destruct (view_Some_inv _ _ _ Hview) as [[a Ha] Hlen].
  assert (fresh (dom h) ≠ arr (Todos s)) as Hne.
  { intros Heq. pose proof (is_fresh (dom h)) as Hfresh.
    rewrite Heq in Hfresh. apply Hfresh, elem_of_dom. eauto. }
  unfold Add, store, copy, make; simpl.
  assert (view (<[fresh (dom h) := replicate (len (Todos s) + 1) httpserver.zeroTodo]> h)
               (Todos s) = Some l) as ->.
  { rewrite <- Hview. unfold view. by rewrite lookup_insert_ne. }
  unfold view; simpl.
  rewrite !lookup_alter_eq, lookup_insert_eq; simpl.
  replace ((len (Todos s) + 1) `min` len (Todos s)) with (length l) by lia.
  rewrite <- !Hlen. rewrite take_ge by lia. rewrite drop_replicate.
  replace (length l + 1 - length l) with 1 by lia. simpl.
  rewrite insert_app_r_alt by lia. rewrite Nat.sub_diag; simpl.
  assert (length (l ++ [httpserver.mkTodo (NextID s) title false now])
          = length l + 1) as Hlen' by (rewrite length_app; simpl; lia).
  rewrite option_guard_True by lia. simpl.
  rewrite drop_0. by rewrite take_ge by lia.
Qed.

(** The in-memory method computes the snapshot that the value-level
    [httpserver.Add] describes. *)
Lemma Add_refines s title now h v :
  snapshot h s = Some v →
  snapshot (Add s title now h).2 (Add s title now h).1 =
  Some (httpserver.Add v title now).
Proof.
  unfold snapshot. destruct (view h (Todos s)) as [l|] eqn:Hview; [|done].
  intros Hv. injection Hv as <-.
  rewrite (Add_view _ _ _ _ l Hview). cbn [mbind option_bind].
  f_equal.
  pose proof (Add_Todos (httpserver.mkTodoState l (NextID s)) title now) as HT.
  pose proof (Add_NextID (httpserver.mkTodoState l (NextID s)) title now) as HN.
  destruct (httpserver.Add _ _ _) as [l' n']. simpl in HT, HN. by subst.
Qed.

End SliceFacts.

(** ** The handlers *)

Section ServerFacts.
Import server.
Context {Snapshot PanicValue : Type}.
Implicit Types (g : goroutine Snapshot PanicValue) (sys : system Snapshot PanicValue)
  (tr : list (nat * event Snapshot PanicValue)) (sched : list nat) (i j : nat)
  (v : PanicValue).

(** Each statement extends the history of its goroutine by its event and
    changes the snapshot only if it is the store. *)
Lemma step_inv g sv ev g' sv' :
  step g sv = Some (ev, g', sv') →
  transform g' = transform g ∧
  history (at_pc g') = history (at_pc g) ++ [ev] ∧
  state sv' = match ev with EvStore newState => newState | _ => state sv end.
Proof.
  unfold step. destruct (at_pc g) eqn:Hpc; intros Hstep;
    repeat case_match; simplify_eq; done.
Qed.

Lemma events_of_cons i j ev tr :
  events_of i ((j, ev) :: tr) =
  if decide (j = i) then ev :: events_of i tr else events_of i tr.
Proof. unfold events_of. rewrite filter_cons; simpl. by case_decide. Qed.

(** A statement that raises a panic is the call, and the transformation
    panicked on the snapshot the goroutine had read. *)
Lemma step_panic g sv v g' sv' :
  step g sv = Some (EvPanic v, g', sv') →
  ∃ currentState,
    at_pc g = AtCall currentState ∧ transform g currentState = Panics v.
Proof.
  unfold step. destruct (at_pc g) eqn:Hpc; intros Hstep;
    repeat case_match; simplify_eq. eauto.
Qed.

(** The first turn of a schedule, taken apart. *)
Lemma run_cons_inv sys j sched tr sys' :
  run sys (j :: sched) = Some (tr, sys') →
  ∃ gj ev gj' sv' tr1,
    pool sys !! j = Some gj ∧
    step gj (srv sys) = Some (ev, gj', sv') ∧
    tr = (j, ev) :: tr1 ∧
    run {| srv := sv'; pool := <[j := gj']> (pool sys) |} sched = Some (tr1, sys').
Proof.
  simpl. unfold sys_step.
  destruct (pool sys !! j) as [gj|] eqn:Hgj; [|done]. simpl.
  destruct (step gj (srv sys)) as [[[ev gj'] sv']|] eqn:Hs; [|done]. simpl.
  destruct (run _ sched) as [[tr1 sys2]|] eqn:Hrun1; [|done]. simpl.
  intros [= <- <-]. by exists gj, ev, gj', sv', tr1.
Qed.

(** The goroutine found at index [i] after goroutine [j] has moved. *)
Lemma pool_after_step (gs : list (goroutine Snapshot PanicValue)) i j g gj gj' :
  gs !! i = Some g → gs !! j = Some gj →
  <[j := gj']> gs !! i = Some (if decide (j = i) then gj' else g).
Proof.
  intros Hi Hj. case_decide as Heq.
  - subst. apply list_lookup_insert_eq. by eapply lookup_lt_Some.
  - by rewrite list_lookup_insert_ne.
Qed.

(** Along any execution a goroutine keeps its transformation, and its
    events are what separates its history at the end from the one at the
    start. *)
Lemma run_history sched : ∀ sys tr sys' i g,
  run sys sched = Some (tr, sys') → pool sys !! i = Some g →
  ∃ g', pool sys' !! i = Some g' ∧ transform g' = transform g ∧
        history (at_pc g') = history (at_pc g) ++ events_of i tr.
Proof.
  induction sched as [|j sched IH]; intros sys tr sys' i g Hrun Hg.
  - simpl in Hrun. simplify_eq. exists g. by rewrite app_nil_r.
  - apply run_cons_inv in Hrun
      as (gj & ev & gj' & sv' & tr1 & Hgj & Hs & -> & Hrun1).
    destruct (step_inv _ _ _ _ _ Hs) as (Htr & Hhist & _).
    pose proof (pool_after_step _ _ _ _ _ gj' Hg Hgj) as Hi.
    destruct (IH _ _ _ i _ Hrun1 Hi) as (g' & Hg' & Htr' & Hhist').
    exists g'. split; [done|]. rewrite events_of_cons.
    destruct (decide (j = i)) as [->|Hne].
    + rewrite Hg in Hgj. simplify_eq. split; [congruence|].
      by rewrite Hhist', Hhist, <- app_assoc.
    + done.
Qed.

(** The snapshot at the end of an execution is the one its stores leave. *)
Lemma run_committed sched : ∀ sys tr sys',
  run sys sched = Some (tr, sys') →
  state (srv sys') = committed (state (srv sys)) tr.
Proof.
  induction sched as [|j sched IH]; intros sys tr sys' Hrun.
  - simpl in Hrun. by simplify_eq.
  - apply run_cons_inv in Hrun
      as (gj & ev & gj' & sv' & tr1 & Hgj & Hs & -> & Hrun1).
    destruct (step_inv _ _ _ _ _ Hs) as (_ & _ & Hst).
    rewrite (IH _ _ _ Hrun1). unfold committed; simpl. by rewrite Hst.
Qed.

(** A panic event of a goroutine comes from its transformation. *)
Lemma run_panic_origin sched : ∀ sys tr sys' i g v,
  run sys sched = Some (tr, sys') → pool sys !! i = Some g →
  (i, EvPanic v) ∈ tr →
  ∃ currentState, transform g currentState = Panics v.
Proof.
  induction sched as [|j sched IH]; intros sys tr sys' i g v Hrun Hg Hin.
  - simpl in Hrun. simplify_eq. by apply elem_of_nil in Hin.
  - apply run_cons_inv in Hrun
      as (gj & ev & gj' & sv' & tr1 & Hgj & Hs & -> & Hrun1).
    destruct (step_inv _ _ _ _ _ Hs) as (Htr & _ & _).
    apply elem_of_cons in Hin as [Heq|Hin].
    + simplify_eq. apply step_panic in Hs as (cur & _ & Hf). eauto.
    + pose proof (pool_after_step _ _ _ _ _ gj' Hg Hgj) as Hi.
      destruct (IH _ _ _ i _ v Hrun1 Hi Hin) as (cur & Hf).
      exists cur. case_decide; [|done]. subst. simplify_eq. congruence.
Qed.

Lemma events_of_elem i ev tr : (i, ev) ∈ tr ↔ ev ∈ events_of i tr.
Proof.
  unfold events_of. rewrite list_elem_of_fmap. split.
  - intros Hin. exists (i, ev). split; [done|]. by apply list_elem_of_filter.
  - intros ([j ev'] & -> & [Hj Hin]%list_elem_of_filter). simpl in Hj. by subst.
Qed.

(** Only a goroutine that is unwinding has a panic behind it. *)
Lemma history_panic (p : pc Snapshot PanicValue) v :
  EvPanic v ∈ history p → p = Panicking v.
Proof.
  destruct p; simpl; intros Hin;
    repeat (apply elem_of_cons in Hin as [Hin|Hin]; [by simplify_eq|]);
    by apply elem_of_nil in Hin.
Qed.

(** A goroutine that runs alone on an unlocked server and whose
    transformation panics on the current snapshot reaches the panic in
    four statements and leaves the server as it found it. *)
Lemma solo_panic f (sv : Server Snapshot) v :
  writer (stateMu sv) = false → f (state sv) = Panics v →
  run {| srv := sv; pool := [enter f] |} [0; 0; 0; 0] =
  Some ([(0, EvRLock); (0, EvRead); (0, EvRUnlock); (0, EvPanic v)],
        {| srv := sv; pool := [goto (enter f) (Panicking v)] |}).
Proof.
  intros Hw Hf. destruct sv as [st [n w]]. simpl in *. subst w.
  unfold sys_step, step; simpl. rewrite Hf; simpl.
  by replace (n + 1 - 1) with n by lia.
Qed.

(** The same goroutine with a transformation that returns: seven
    statements, and the server holds the new snapshot with its lock free
    again. *)
Lemma solo_commit (f : Snapshot → outcome Snapshot PanicValue)
    (sv : Server Snapshot) newState :
  stateMu sv = {| readers := 0; writer := false |} →
  f (state sv) = Returns newState →
  run {| srv := sv; pool := [enter f] |} [0; 0; 0; 0; 0; 0; 0] =
  Some ([(0, EvRLock); (0, EvRead); (0, EvRUnlock); (0, EvReturn);
         (0, EvLock); (0, EvStore newState); (0, EvUnlock)],
        {| srv := {| state := newState; stateMu := stateMu sv |};
           pool := [goto (enter f) (Returned newState)] |}).
Proof.
  intros Hmu Hf. destruct sv as [st mu]. simpl in *. subst mu.
  unfold sys_step, step; simpl. by rewrite Hf.
Qed.

End ServerFacts.

(** The repository's own handlers call total functions: in no execution
    does one of them raise a panic. *)
Lemma HandlePlace_never_panics {PanicValue}
    (sys sys' : server.system sudokuexample.SudokuState PanicValue)
    sched tr i row col num v :
  server.run sys sched = Some (tr, sys') →
  server.pool sys !! i = Some (server.HandlePlace row col num) →
  (i, server.EvPanic v) ∉ tr.
Proof.
  intros Hrun Hi Hin.
  by destruct (run_panic_origin _ _ _ _ _ _ _ Hrun Hi Hin) as (cur & Hf).
Qed.

(* ================================================================== *)
(** * Part III: the statements of the specification                    *)
(* ================================================================== *)

Section RecordVariant.
Import httpserver.

(** C1.  Record-variant [Merge], for every pair of states [a], [b]: an ID
    that occurs in [a] is carried by exactly one record of the result, the
    first record of [a] with that ID (so the left operand wins when both
    sides carry the ID); an ID that occurs only in [b] is carried by exactly
    one record, the first record of [b] with that ID; an ID that occurs in
    neither operand is carried by no record; and the result's [NextID] is
    the maximum of the two. *)
Theorem Merge_one_record_per_ID_left_wins (a b : TodoState) :
  (∀ id, id ∈ idset (Todos a) →
     ∃ t, with_id id (Todos (Merge a b)) = [t] ∧
          head (with_id id (Todos a)) = Some t) ∧
  (∀ id, id ∉ idset (Todos a) → id ∈ idset (Todos b) →
     ∃ t, with_id id (Todos (Merge a b)) = [t] ∧
          head (with_id id (Todos b)) = Some t) ∧
  (∀ id, id ∉ idset (Todos a) → id ∉ idset (Todos b) →
     with_id id (Todos (Merge a b)) = []) ∧
  NextID (Merge a b) = Z.max (NextID a) (NextID b).
Proof.
  repeat split.
  - intros id Ha. rewrite with_id_Merge.
    destruct (with_id_nonempty id _ Ha) as (t & k & ->). by exists t.
  - intros id Ha Hb. rewrite with_id_Merge, (with_id_empty id _ Ha).
    destruct (with_id_nonempty id _ Hb) as (t & k & ->). by exists t.
  - intros id Ha Hb.
    by rewrite with_id_Merge, (with_id_empty id _ Ha), (with_id_empty id _ Hb).
  - apply Merge_NextID.
Qed.

(** Two states that both carry ID 1, with different titles. *)
Lemma Merge_one_record_per_ID_left_wins_witness :
  let a := {| Todos := [mkTodo 1 "left" false 10%Z; mkTodo 2 "two" false 11%Z];
              NextID := 3 |} in
  let b := {| Todos := [mkTodo 1 "right" false 20%Z; mkTodo 7 "seven" false 21%Z];
              NextID := 8 |} in
  (∃ t, with_id 1 (Todos (Merge a b)) = [t] ∧
        head (with_id 1 (Todos a)) = Some t) ∧
  (∃ t, with_id 7 (Todos (Merge a b)) = [t] ∧
        head (with_id 7 (Todos b)) = Some t) ∧
  with_id 5 (Todos (Merge a b)) = [].
Proof.
  intros a b.
  destruct (Merge_one_record_per_ID_left_wins a b) as (Hleft & Hright & Hnone & _).
  split; [|split].
  - apply Hleft. by apply (bool_decide_unpack _).
  - apply Hright; by apply (bool_decide_unpack _).
  - apply Hnone; by apply (bool_decide_unpack _).
Defined.

(** C7.  The ID collision scenario: two states built from [NewServer]'s
    initial state ([NextID = 1]) by five [Add] calls each both carry the
    IDs 1..5, and merging them yields exactly the five records of the left
    one, the right one's records being dropped. *)
Theorem Merge_ID_collision_keeps_five (reqsA reqsB : list (string * Time)) :
  length reqsA = 5 → length reqsB = 5 →
  let A := AddAll NewServer_state reqsA in
  let B := AddAll NewServer_state reqsB in
  ids (Todos A) = [1; 2; 3; 4; 5]%Z ∧ ids (Todos B) = [1; 2; 3; 4; 5]%Z ∧
  Todos (Merge A B) = Todos A ∧ length (Todos (Merge A B)) = 5.
Proof.
  intros HA HB.
  destruct reqsA as [|[a1 u1] [|[a2 u2] [|[a3 u3] [|[a4 u4] [|[a5 u5] [|? ?]]]]]];
    try discriminate HA.
  destruct reqsB as [|[b1 v1] [|[b2 v2] [|[b3 v3] [|[b4 v4] [|[b5 v5] [|? ?]]]]]];
    try discriminate HB.
  vm_compute. by repeat split.
Qed.

Lemma Merge_ID_collision_keeps_five_witness :
  let reqsA := [("A-1", 1%Z); ("A-2", 2%Z); ("A-3", 3%Z); ("A-4", 4%Z); ("A-5", 5%Z)] in
  let reqsB := [("B-1", 1%Z); ("B-2", 2%Z); ("B-3", 3%Z); ("B-4", 4%Z); ("B-5", 5%Z)] in
  Todos (Merge (AddAll NewServer_state reqsA) (AddAll NewServer_state reqsB))
  = Todos (AddAll NewServer_state reqsA) ∧
  length (Todos (Merge (AddAll NewServer_state reqsA)
                       (AddAll NewServer_state reqsB))) = 5.
Proof.
  intros reqsA reqsB.
  destruct (Merge_ID_collision_keeps_five reqsA reqsB) as (_ & _ & H1 & H2);
    [reflexivity..|].
  by split.
Defined.

End RecordVariant.

Section AddInMemory.
Import slicemem.

(** C8 (as amended).  Record-variant [Add], for every state [s] whose slice
    denotes the sequence [old] in the heap: the returned state's slice
    denotes [old] with exactly one record appended, whose ID is [s.NextID];
    its [NextID] is [s.NextID + 1] in Go's [int] arithmetic, which is the
    integer successor whenever [s.NextID] is below the largest [int]; and
    the receiver is not mutated: it denotes the same sequence afterwards,
    and no backing array that existed before the call has changed. *)
Theorem Add_appends_without_mutation
    (s : TodoState) (title : string) (now : httpserver.Time)
    (h : heap) (old : list httpserver.Todo) :
  view h (Todos s) = Some old →
  let s' := (Add s title now h).1 in
  let h' := (Add s title now h).2 in
  view h' (Todos s') =
    Some (old ++ [httpserver.mkTodo (NextID s) title false now]) ∧
  NextID s' = GoInt.add (NextID s) 1 ∧
  (GoInt.in_range (NextID s) → (NextID s < GoInt.max_int)%Z →
     NextID s' = (NextID s + 1)%Z) ∧
  view h' (Todos s) = Some old ∧
  (∀ p, p ∈ dom h → h' !! p = h !! p).
Proof.
  intros Hview s' h'. split; [by apply Add_view|]. split; [done|].
  split; [|split].
  - intros Hrange Hlt. subst s'. unfold Add; simpl.
    apply add_no_overflow. unfold GoInt.in_range, GoInt.min_int, GoInt.max_int in *.
    lia.
  - rewrite <- Hview. apply view_frame.
    + by destruct (view_Some_inv _ _ _ Hview).
    + intros p Hp. by apply Add_frame.
  - intros p Hp. by apply Add_frame.
Qed.

(** A state holding one record, with ID 1, in array 0. *)
Lemma Add_appends_without_mutation_witness :
  let first := httpserver.mkTodo 1 "first" false 100%Z in
  let h : heap := {[ 0 := [first] ]} in
  let s := {| Todos := mkSlice 0 0 1 1; NextID := 2 |} in
  view (Add s "second" 200%Z h).2 (Todos (Add s "second" 200%Z h).1) =
    Some [first; httpserver.mkTodo 2 "second" false 200%Z] ∧
  NextID (Add s "second" 200%Z h).1 = 3%Z ∧
  view (Add s "second" 200%Z h).2 (Todos s) = Some [first].
Proof.
  intros first h s.
  destruct (Add_appends_without_mutation s "second" 200%Z h [first])
    as (Hnew & _ & Hnext & Hold & _); [reflexivity|].
  split; [exact Hnew|]. split; [|exact Hold].
  apply Hnext; vm_compute; split; congruence.
Defined.

(** Without the bound the successor equation fails: at the largest [int],
    [Add] wraps the counter around to the smallest [int]. *)
Lemma Add_NextID_wraps_at_max_int :
  let h : heap := {[ 0 := [] ]} in
  let s := {| Todos := mkSlice 0 0 0 0; NextID := GoInt.max_int |} in
  view h (Todos s) = Some [] ∧
  NextID (Add s "x" 0%Z h).1 = GoInt.min_int ∧
  NextID (Add s "x" 0%Z h).1 ≠ (NextID s + 1)%Z.
Proof. intros h s. split; [reflexivity|]. split; [reflexivity|]. by vm_compute. Qed.

End AddInMemory.

Section GridVariant.
Import sudokuexample.

(** C2.  Grid-variant [Merge] is the cell-wise combinator: for all boards
    [s], [o] and every cell, the merged cell is [o]'s value when [s]'s cell
    is 0, [s]'s value when [o]'s cell is 0, the common value when the two
    are equal, and [o]'s value when both are non-zero and different. *)
Theorem Merge_cellwise_truth_table (s o : SudokuState) (row col : Z) :
  wf s → wf o → in_bounds row col →
  let a := cell (Board s) row col in
  let b := cell (Board o) row col in
  let m := cell (Board (Merge s o)) row col in
  (a = 0%Z → m = b) ∧
  (b = 0%Z → m = a) ∧
  (a = b → m = a) ∧
  (a ≠ 0%Z → b ≠ 0%Z → a ≠ b → m = b).
Proof.
  intros Hs Ho Hrc a b m. subst m. rewrite Merge_cell by done.
  fold a b. unfold merge_cell. repeat split; intros; repeat case_decide; congruence.
Qed.

(** Solver A has placed 5 at (0,0) and 3 at (0,1); solver B has placed 7
    at (0,0) and 9 at (7,7). *)
Lemma Merge_cellwise_truth_table_witness :
  let A := PlaceNumber (PlaceNumber empty 0 0 5) 0 1 3 in
  let B := PlaceNumber (PlaceNumber empty 0 0 7) 7 7 9 in
  cell (Board (Merge A B)) 0 0 = 7%Z ∧
  cell (Board (Merge A B)) 0 1 = 3%Z ∧
  cell (Board (Merge A B)) 7 7 = 9%Z ∧
  cell (Board (Merge A B)) 4 4 = 0%Z.
Proof.
  intros A B.
  assert (wf A) as HA by (by apply wfb_true).
  assert (wf B) as HB by (by apply wfb_true).
  pose proof (Merge_cellwise_truth_table A B 0 0 HA HB) as H00.
  pose proof (Merge_cellwise_truth_table A B 0 1 HA HB) as H01.
  pose proof (Merge_cellwise_truth_table A B 7 7 HA HB) as H77.
  pose proof (Merge_cellwise_truth_table A B 4 4 HA HB) as H44.
  cbv zeta in H00, H01, H77, H44.
  destruct H00 as (_ & _ & _ & H00); [unfold in_bounds; lia|].
  destruct H01 as (_ & H01 & _ & _); [unfold in_bounds; lia|].
  destruct H77 as (H77 & _ & _ & _); [unfold in_bounds; lia|].
  destruct H44 as (_ & _ & H44 & _); [unfold in_bounds; lia|].
  split; [|split; [|split]].
  - apply H00; by vm_compute.
  - apply H01; by vm_compute.
  - apply H77; by vm_compute.
  - apply H44; by vm_compute.
Defined.

(** C6.  Grid-variant [PlaceNumber]: the state comes back unchanged when
    [row] or [col] is outside 0..8, when [num] is outside the domain 0..9
    that the guard lets through, or when the cell is already non-zero;
    otherwise the result holds [num] at [(row, col)] and agrees with the
    receiver on every other cell. *)
Theorem PlaceNumber_rejects_or_sets_one_cell (s : SudokuState) (row col num : Z) :
  wf s →
  (¬ in_bounds row col ∨ ¬ allowed num ∨ cell (Board s) row col ≠ 0%Z →
     PlaceNumber s row col num = s) ∧
  (in_bounds row col → allowed num → cell (Board s) row col = 0%Z →
     wf (PlaceNumber s row col num) ∧
     cell (Board (PlaceNumber s row col num)) row col = num ∧
     ∀ r c, in_bounds r c → (r, c) ≠ (row, col) →
       cell (Board (PlaceNumber s row col num)) r c = cell (Board s) r c).
Proof.
  intros Hwf. split; [apply PlaceNumber_rejects|].
  intros Hrc Hnum Hcell. split; [by apply PlaceNumber_wf|].
  rewrite PlaceNumber_accepts by done. simpl. split.
  - rewrite cell_set_cell by done. by rewrite decide_True.
  - intros r c Hrc' Hne. rewrite cell_set_cell by done.
    rewrite decide_False; [done|]. intros [-> ->]. done.
Qed.

(** A board with 5 at (0,0): a second write there, an out-of-range row and
    an out-of-range value leave it as it is; a write to the empty (1,1)
    sets that cell and keeps (0,0). *)
Lemma PlaceNumber_rejects_or_sets_one_cell_witness :
  let s := PlaceNumber empty 0 0 5 in
  PlaceNumber s 0 0 7 = s ∧
  PlaceNumber s 9 0 7 = s ∧
  PlaceNumber s 1 1 10 = s ∧
  cell (Board (PlaceNumber s 1 1 3)) 1 1 = 3%Z ∧
  cell (Board (PlaceNumber s 1 1 3)) 0 0 = cell (Board s) 0 0.
Proof.
  intros s.
  assert (wf s) as Hs by (by apply wfb_true).
  split; [|split; [|split; [|split]]].
  - apply (PlaceNumber_rejects_or_sets_one_cell s 0 0 7 Hs).
    right; right. by vm_compute.
  - apply (PlaceNumber_rejects_or_sets_one_cell s 9 0 7 Hs).
    left. unfold in_bounds. lia.
  - apply (PlaceNumber_rejects_or_sets_one_cell s 1 1 10 Hs).
    right; left. unfold allowed. lia.
  - apply (PlaceNumber_rejects_or_sets_one_cell s 1 1 3 Hs);
      [unfold in_bounds; lia|unfold allowed; lia|reflexivity].
  - apply (PlaceNumber_rejects_or_sets_one_cell s 1 1 3 Hs);
      [unfold in_bounds; lia|unfold allowed; lia|reflexivity
      |unfold in_bounds; lia|congruence].
Defined.

(** C10.  The value guard of [PlaceNumber] admits 0, and placing 0 at any
    in-bounds position returns a state equal to the receiver: on an empty
    cell the write is performed and reproduces the board, on a filled cell
    the write-once check rejects it.  Whatever the value, a filled cell
    keeps its content, so [PlaceNumber] never clears a cell. *)
Theorem PlaceNumber_zero_is_noop (s : SudokuState) (row col : Z) :
  wf s → in_bounds row col →
  allowed 0 ∧
  PlaceNumber s row col 0 = s ∧
  (cell (Board s) row col = 0%Z →
     PlaceNumber s row col 0 = {| Board := set_cell (Board s) row col 0 |}) ∧
  (∀ num, cell (Board s) row col ≠ 0%Z →
     PlaceNumber s row col num = s ∧
     cell (Board (PlaceNumber s row col num)) row col ≠ 0%Z).
Proof.
  intros Hwf Hrc.
  assert (allowed 0) as H0 by (unfold allowed; lia).
  split; [done|]. split; [|split].
  - destruct (decide (cell (Board s) row col = 0%Z)) as [Hz|Hnz].
    + rewrite PlaceNumber_accepts by done.
      pose proof (set_cell_same (Board s) row col Hwf Hrc) as Hsame.
      rewrite Hz in Hsame. rewrite Hsame. by destruct s.
    + apply PlaceNumber_rejects. auto.
  - intros Hz. by apply PlaceNumber_accepts.
  - intros num Hnz.
    assert (PlaceNumber s row col num = s) as -> by (apply PlaceNumber_rejects; auto).
    done.
Qed.

Lemma PlaceNumber_zero_is_noop_witness :
  let s := PlaceNumber empty 0 0 5 in
  PlaceNumber s 0 0 0 = s ∧ PlaceNumber s 3 4 0 = s.
Proof.
  intros s.
  assert (wf s) as Hs by (by apply wfb_true).
  destruct (PlaceNumber_zero_is_noop s 0 0 Hs) as (_ & Hfilled & _);
    [unfold in_bounds; lia|].
  destruct (PlaceNumber_zero_is_noop s 3 4 Hs) as (_ & Hempty & _);
    [unfold in_bounds; lia|].
  by split.
Defined.

End GridVariant.

Section MergeLaws.

Local Abbreviation TodoState := httpserver.TodoState.
Local Abbreviation SudokuState := sudokuexample.SudokuState.
Local Abbreviation Todos := httpserver.Todos.
Local Abbreviation idset := httpserver.idset.
Local Abbreviation mkTodo := httpserver.mkTodo.
Local Abbreviation empty := sudokuexample.empty.
Local Abbreviation PlaceNumber := sudokuexample.PlaceNumber.

(** C3.  [Merge] is associative on snapshots with pairwise-disjoint record
    IDs (record variant) and with pairwise-disjoint filled cells (grid
    variant).  (Lemmas [Todo_Merge_assoc] and [Sudoku_Merge_assoc] show
    that neither side condition is needed.) *)
Theorem Merge_associative_on_disjoint_snapshots :
  (∀ a b c : TodoState,
     idset (Todos a) ## idset (Todos b) →
     idset (Todos a) ## idset (Todos c) →
     idset (Todos b) ## idset (Todos c) →
     httpserver.Merge (httpserver.Merge a b) c =
     httpserver.Merge a (httpserver.Merge b c)) ∧
  (∀ s o p : SudokuState,
     sudokuexample.wf s → sudokuexample.wf o → sudokuexample.wf p →
     sudokuexample.cells_disjoint s o →
     sudokuexample.cells_disjoint s p →
     sudokuexample.cells_disjoint o p →
     sudokuexample.Merge (sudokuexample.Merge s o) p =
     sudokuexample.Merge s (sudokuexample.Merge o p)).
Proof.
  split.
  - intros a b c _ _ _. apply Todo_Merge_assoc.
  - intros s o p Hs Ho _ _ _ _. by apply Sudoku_Merge_assoc.
Qed.

(** The generator of the repository's associativity tests: snapshot [k]
    holds one record with ID [k], respectively one filled cell. *)
Lemma Merge_associative_on_disjoint_snapshots_witness :
  let a := httpserver.mkTodoState [mkTodo 1 "Todo" false 0%Z] 2 in
  let b := httpserver.mkTodoState [mkTodo 2 "Todo" false 0%Z] 3 in
  let c := httpserver.mkTodoState [mkTodo 3 "Todo" false 0%Z] 4 in
  let s := PlaceNumber empty 0 0 1 in
  let o := PlaceNumber empty 0 1 2 in
  let p := PlaceNumber empty 0 2 3 in
  httpserver.Merge (httpserver.Merge a b) c =
  httpserver.Merge a (httpserver.Merge b c) ∧
  sudokuexample.Merge (sudokuexample.Merge s o) p =
  sudokuexample.Merge s (sudokuexample.Merge o p).
Proof.
  intros a b c s o p.
  destruct Merge_associative_on_disjoint_snapshots as [Htodo Hgrid].
  split.
  - apply Htodo; by apply (bool_decide_unpack _).
  - apply Hgrid; try (by apply wfb_true);
      by apply cells_disjointb_true.
Defined.

(** C4 (as amended).  [Merge] is idempotent on every record snapshot whose
    record IDs are pairwise distinct, and on every grid snapshot. *)
Theorem Merge_idempotent :
  (∀ a : TodoState,
     NoDup (httpserver.ids (Todos a)) → httpserver.Merge a a = a) ∧
  (∀ s : SudokuState,
     sudokuexample.wf s → sudokuexample.Merge s s = s).
Proof. split; [apply Todo_Merge_idemp|apply Sudoku_Merge_idemp]. Qed.

Lemma Merge_idempotent_witness :
  let a := httpserver.mkTodoState
             [mkTodo 1 "Test" false 0%Z; mkTodo 2 "Other" false 1%Z] 3 in
  let s := PlaceNumber (PlaceNumber empty 0 0 5) 1 1 3 in
  httpserver.Merge a a = a ∧ sudokuexample.Merge s s = s.
Proof.
  intros a s. destruct Merge_idempotent as [Htodo Hgrid]. split.
  - apply Htodo. by apply (bool_decide_unpack _).
  - apply Hgrid. by apply wfb_true.
Defined.

(** Idempotence does not extend to every [TodoState]: on a state in which
    two records share an ID, merging it with itself drops the second. *)
Lemma Merge_not_idempotent_on_duplicate_IDs :
  let a := httpserver.mkTodoState
             [mkTodo 1 "first" false 0%Z; mkTodo 1 "second" false 0%Z] 2 in
  httpserver.Merge a a = httpserver.mkTodoState [mkTodo 1 "first" false 0%Z] 2 ∧
  httpserver.Merge a a ≠ a.
Proof. intros a. split; [reflexivity|]. by vm_compute. Qed.

(** C5.  [Merge] is commutative when the operands do not conflict.  Record
    variant, disjoint IDs: the two results hold the same records (as a set,
    and even with the same multiplicities) and the same [NextID]; only the
    order of the sequence may differ.  Grid variant, no cell filled in both
    boards with different values: the two results are equal. *)
Theorem Merge_commutative_without_conflict :
  (∀ a b : TodoState,
     idset (Todos a) ## idset (Todos b) →
     (∀ t, t ∈ Todos (httpserver.Merge a b) ↔ t ∈ Todos (httpserver.Merge b a)) ∧
     Todos (httpserver.Merge a b) ≡ₚ Todos (httpserver.Merge b a) ∧
     httpserver.NextID (httpserver.Merge a b) =
     httpserver.NextID (httpserver.Merge b a)) ∧
  (∀ s o : SudokuState,
     sudokuexample.wf s → sudokuexample.wf o →
     sudokuexample.no_conflict s o →
     sudokuexample.Merge s o = sudokuexample.Merge o s).
Proof.
  split.
  - intros a b Hdisj.
    pose proof (Todo_Merge_comm_perm a b Hdisj) as Hperm.
    split; [|split; [done|]].
    + intros t. by rewrite Hperm.
    + rewrite !Merge_NextID. lia.
  - apply Sudoku_Merge_comm.
Qed.

(** Two todo servers started with ID bands 100.. and 200.., and the two
    solvers of [TestDistributedSolving]. *)
Lemma Merge_commutative_without_conflict_witness :
  let a := httpserver.AddAll (httpserver.NewServerWithIDMultiplier_state 1)
             [("A-1", 0%Z); ("A-2", 1%Z)] in
  let b := httpserver.AddAll (httpserver.NewServerWithIDMultiplier_state 2)
             [("B-1", 2%Z)] in
  let s := PlaceNumber (PlaceNumber (PlaceNumber empty 0 0 5) 0 1 3) 1 0 6 in
  let o := PlaceNumber (PlaceNumber (PlaceNumber empty 7 7 9) 8 8 1) 8 7 4 in
  Todos (httpserver.Merge a b) ≡ₚ Todos (httpserver.Merge b a) ∧
  sudokuexample.Merge s o = sudokuexample.Merge o s.
Proof.
  intros a b s o.
  destruct Merge_commutative_without_conflict as [Htodo Hgrid]. split.
  - apply Htodo. by apply (bool_decide_unpack _).
  - apply Hgrid; try (by apply wfb_true). by apply no_conflictb_true.
Defined.

End MergeLaws.

Section FailureAtomicity.
Import server.
Context {Snapshot PanicValue : Type}.

(** C9.  Failure atomicity of the store.  Take any server state, any pool
    of goroutines inside handlers and any schedule.  If the transformation
    of a goroutine that entered its handler panics with value [v] between
    its shared-lock read and its exclusive-lock swap, then: the panic
    reaches the handler's caller (the goroutine ends unwinding with [v],
    which [IsolatedOperation] reports as [(false, v)]); the goroutine's
    whole activity is [RLock; read; RUnlock; panic], so it never acquires
    the exclusive lock, never stores, and calls the transformation once,
    without retry; it can take no further step; and the server's snapshot is
    the value of the last committed store of the execution (the initial
    snapshot if there is none), none of which is this goroutine's. *)
Theorem panic_leaves_last_committed_snapshot
    (sys sys' : system Snapshot PanicValue) (sched : list nat)
    (tr : list (nat * event Snapshot PanicValue)) (i : nat)
    (f : Snapshot → outcome Snapshot PanicValue) (v : PanicValue) :
  run sys sched = Some (tr, sys') →
  pool sys !! i = Some (enter f) →
  (i, EvPanic v) ∈ tr →
  (∃ currentState, f currentState = Panics v) ∧
  ∃ g', pool sys' !! i = Some g' ∧
    at_pc g' = Panicking v ∧
    observed g' = Some (Panics v) ∧
    IsolatedOperation (Panics v : outcome Snapshot PanicValue) = (false, Some v) ∧
    events_of i tr = [EvRLock; EvRead; EvRUnlock; EvPanic v] ∧
    ((i, EvLock) ∉ tr) ∧ (∀ newState, (i, EvStore newState) ∉ tr) ∧
    sys_step i sys' = None ∧
    state (srv sys') = committed (state (srv sys)) tr.
Proof.
  intros Hrun Hi Hpanic.
  split; [apply (run_panic_origin _ _ _ _ _ _ _ Hrun Hi Hpanic)|].
  destruct (run_history _ _ _ _ i _ Hrun Hi) as (g' & Hg' & _ & Hhist).
  simpl in Hhist. apply events_of_elem in Hpanic.
  assert (at_pc g' = Panicking v) as Hpc.
  { apply history_panic. by rewrite Hhist. }
  assert (events_of i tr = [EvRLock; EvRead; EvRUnlock; EvPanic v]) as Hev.
  { by rewrite <- Hhist, Hpc. }
  exists g'. repeat split; try done.
  - unfold observed. by rewrite Hpc.
  - rewrite events_of_elem, Hev. set_solver.
  - intros newState. rewrite events_of_elem, Hev. set_solver.
  - unfold sys_step, step. rewrite Hg'; simpl. by rewrite Hpc.
  - by eapply run_committed.
Qed.

End FailureAtomicity.

(** A Sudoku server with 5 at (0,0).  Goroutine 0 runs a transformation
    that panics, goroutine 1 is [HandlePlace] for 3 at (1,1); their
    statements interleave. *)
Lemma panic_leaves_last_committed_snapshot_witness :
  let board := sudokuexample.PlaceNumber sudokuexample.empty 0 0 5 in
  let sys :=
    {| server.srv := {| server.state := board;
                        server.stateMu := server.mkRWMutex 0 false |};
       server.pool := [server.enter (λ _, server.Panics "boom");
                       server.HandlePlace 1 1 3] |} in
  let sched := [0; 1; 0; 1; 0; 1; 0; 1; 1; 1; 1] in
  ∃ tr sys',
    server.run sys sched = Some (tr, sys') ∧
    server.events_of 0 tr =
      [server.EvRLock; server.EvRead; server.EvRUnlock; server.EvPanic "boom"] ∧
    server.state (server.srv sys') = sudokuexample.PlaceNumber board 1 1 3.
Proof.
  intros board sys sched.
  destruct (server.run sys sched) as [[tr sys']|] eqn:Hrun; [|by vm_compute in Hrun].
  exists tr, sys'. split; [done|].
  destruct (panic_leaves_last_committed_snapshot sys sys' sched tr 0
              (λ _, server.Panics "boom") "boom" Hrun)
    as (_ & g' & _ & _ & _ & _ & Hev & _ & _ & _ & Hst).
  - reflexivity.
  - vm_compute in Hrun. injection Hrun as <- _.
    apply list_elem_of_lookup. by exists 6.
  - split; [done|]. rewrite Hst.
    vm_compute in Hrun. injection Hrun as <- _. reflexivity.
Defined.

(* ================================================================== *)
(** * Part IV: further properties of the code                          *)
(* ================================================================== *)

(** ** The inspection methods of the grid *)

Section GridInspection.
Import sudokuexample.
Implicit Types (s o : SudokuState) (nums : list Z) (seen : gmap Z bool).

Local Abbreviation nonzero := (filter (λ num : Z, num ≠ 0%Z)).

(** *** [isValidSet] *)

Lemma isValidSet_from_spec nums : ∀ seen (X : gset Z),
  (∀ num, seen_num seen num = true ↔ num ∈ X) →
  isValidSet_from seen nums = true ↔
  NoDup (nonzero nums) ∧ ∀ num, num ∈ nonzero nums → num ∉ X.
Proof.
  induction nums as [|num nums IH]; intros seen X Hseen; simpl.
  - split; [|done]. intros _. split; [constructor|].
    intros num Hin. by apply elem_of_nil in Hin.
  - destruct (Z.eqb_spec num 0) as [->|Hnz].
    + rewrite filter_cons_False by (intros ?; done). by apply IH.
    + rewrite filter_cons_True by done.
      destruct (seen_num seen num) eqn:Hget.
      * split; [done|]. intros [_ Hfresh].
        apply Hseen in Hget. destruct (Hfresh num); [left|done].
      * assert (num ∉ X) as HnX.
        { intros Hin. apply Hseen in Hin. congruence. }
        rewrite (IH (<[num := true]> seen) ({[num]} ∪ X)).
        2:{ intros k. unfold seen_num. rewrite lookup_insert.
            case_decide as Heq; simpl; [subst; set_solver|].
            fold (seen_num seen k). rewrite Hseen. set_solver. }
        rewrite NoDup_cons. split.
        -- intros [Hnd Hfresh]. split; [split; [|done]|].
           ++ intros Hin. apply Hfresh in Hin. set_solver.
           ++ intros k [->|Hin]%elem_of_cons; [done|].
              apply Hfresh in Hin. set_solver.
        -- intros [[Hnotin Hnd] Hfresh]. split; [done|].
           intros k Hin. apply not_elem_of_union. split.
           ++ intros ->%elem_of_singleton. done.
           ++ apply Hfresh. by right.
Qed.

Lemma isValidSet_NoDup nums : isValidSet nums = true ↔ NoDup (nonzero nums).
Proof.
  unfold isValidSet. rewrite (isValidSet_from_spec nums ∅ ∅).
  - split; [by intros [? _]|]. intros Hnd. split; [done|set_solver].
  - intros num. unfold seen_num. rewrite lookup_empty. simpl. set_solver.
Qed.

(** A set read off the grid through [f] is valid when no two of its
    positions hold the same non-zero number. *)
Lemma NoDup_nonzero_fmap {A} (f : A → Z) (l : list A) :
  NoDup l →
  NoDup (nonzero (f <$> l)) ↔
  ∀ x y, x ∈ l → y ∈ l → x ≠ y → f x ≠ 0%Z → f x ≠ f y.
Proof.
  induction l as [|a l IH]; intros Hnd; simpl.
  - split; [|constructor]. intros _ x y Hx. by apply elem_of_nil in Hx.
  - apply NoDup_cons in Hnd as [Ha Hnd]. specialize (IH Hnd).
    destruct (decide (f a = 0%Z)) as [Hz|Hnz].
    + rewrite filter_cons_False by (intros ?; done). rewrite IH. split.
      * intros Hl x y [->|Hx]%elem_of_cons [->|Hy]%elem_of_cons Hxy Hfx;
          try done; try congruence. by apply Hl.
      * intros Hl x y Hx Hy. apply Hl; by right.
    + rewrite filter_cons_True by done. rewrite NoDup_cons, IH. split.
      * intros [Hnotin Hl] x y [->|Hx]%elem_of_cons [->|Hy]%elem_of_cons Hxy Hfx;
          try done.
        -- intros Heq. apply Hnotin. apply list_elem_of_filter. split; [done|].
           rewrite Heq. apply list_elem_of_fmap. eauto.
        -- intros Heq. apply Hnotin. apply list_elem_of_filter. split; [done|].
           rewrite <- Heq. apply list_elem_of_fmap. eauto.
        -- by apply Hl.
      * intros Hl. split.
        -- intros [_ (y & Heq & Hy)%list_elem_of_fmap]%list_elem_of_filter.
           apply (Hl a y); [by left|by right|by intros ->|done..].
        -- intros x y Hx Hy. apply Hl; by right.
Qed.

(** *** The three ways of cutting the grid *)

Lemma getRow_cells s row :
  wf s → (0 ≤ row ≤ 8)%Z →
  getRow s row = (λ col, cell (Board s) row col) <$> seqZ 0 9.
Proof.
  intros Hwf Hrow. unfold getRow, cell.
  destruct (wf_board_row _ _ Hwf Hrow) as (cells & -> & Hlen). simpl.
  do 10 (destruct cells as [|? cells]; try discriminate Hlen). reflexivity.
Qed.

Lemma getCol_cells s col :
  getCol s col = (λ row, cell (Board s) row col) <$> seqZ 0 9.
Proof. reflexivity. Qed.

(** The positions of the box [(boxRow, boxCol)], row by row. *)
Lemma getBox_cells s boxRow boxCol :
  (0 ≤ boxRow ≤ 2)%Z → (0 ≤ boxCol ≤ 2)%Z →
  getBox s boxRow boxCol =
  (λ p, cell (Board s) p.1 p.2) <$>
    (row ← seqZ (boxRow * 3) 3; col ← seqZ (boxCol * 3) 3; [(row, col)]).
Proof.
  intros Hr Hc.
  assert (boxRow = 0 ∨ boxRow = 1 ∨ boxRow = 2)%Z as [->|[->| ->]] by lia;
    assert (boxCol = 0 ∨ boxCol = 1 ∨ boxCol = 2)%Z as [->|[->| ->]] by lia;
    reflexivity.
Qed.

Lemma forallb_seqZ (test : Z → bool) (m n : Z) :
  forallb test (seqZ m n) = true ↔ ∀ k, (m ≤ k < m + n)%Z → test k = true.
Proof.
  rewrite forallb_forall. split.
  - intros Hall k Hk. by apply Hall, list_elem_of_In, elem_of_seqZ.
  - intros Hall k Hk%list_elem_of_In%elem_of_seqZ. by apply Hall.
Qed.

Lemma elem_of_box (r c boxRow boxCol : Z) :
  (r, c) ∈ (row ← seqZ (boxRow * 3) 3; col ← seqZ (boxCol * 3) 3; [(row, col)])
  ↔ (boxRow * 3 ≤ r < boxRow * 3 + 3)%Z ∧ (boxCol * 3 ≤ c < boxCol * 3 + 3)%Z.
Proof.
  rewrite list_elem_of_bind. split.
  - intros (row & Hin & Hrow%elem_of_seqZ).
    apply list_elem_of_bind in Hin as (col & Hin & Hcol%elem_of_seqZ).
    apply list_elem_of_singleton in Hin. by simplify_eq.
  - intros [Hr Hc]. exists r. split; [|by apply elem_of_seqZ].
    apply list_elem_of_bind. exists c. split; [by left|by apply elem_of_seqZ].
Qed.

Lemma NoDup_box (boxRow boxCol : Z) :
  NoDup (row ← seqZ (boxRow * 3) 3; col ← seqZ (boxCol * 3) 3; [(row, col)]).
Proof.
  apply NoDup_bind; [| |apply NoDup_seqZ].
  - intros r1 r2 [r c] _ _ Hin1 Hin2.
    apply list_elem_of_bind in Hin1 as (c1 & Hin1%list_elem_of_singleton & _).
    apply list_elem_of_bind in Hin2 as (c2 & Hin2%list_elem_of_singleton & _).
    congruence.
  - intros r _. apply NoDup_bind; [| |apply NoDup_seqZ].
    + intros c1 c2 p _ _ Hin1%list_elem_of_singleton Hin2%list_elem_of_singleton.
      congruence.
    + intros c _. apply NoDup_singleton.
Qed.

Lemma box_index (r : Z) :
  (0 ≤ r ≤ 8)%Z →
  (0 ≤ r `div` 3 < 0 + 3)%Z ∧
  (r `div` 3 * 3 ≤ r < r `div` 3 * 3 + 3)%Z.
Proof.
  intros Hr. pose proof (Z.div_mod r 3 ltac:(lia)).
  pose proof (Z.mod_pos_bound r 3 ltac:(lia)). lia.
Qed.

Lemma box_unique (r boxRow : Z) :
  (boxRow * 3 ≤ r < boxRow * 3 + 3)%Z → (r `div` 3 = boxRow)%Z.
Proof.
  intros Hr. symmetry. apply (Z.div_unique r 3 boxRow (r - 3 * boxRow)); lia.
Qed.

(** [IsValid] answers [true] exactly when no two peers hold the same
    non-zero number. *)
Lemma IsValid_peers s :
  wf s →
  IsValid s = true ↔
  ∀ r1 c1 r2 c2, in_bounds r1 c1 → in_bounds r2 c2 → peers r1 c1 r2 c2 →
    cell (Board s) r1 c1 ≠ 0%Z → cell (Board s) r1 c1 ≠ cell (Board s) r2 c2.
Proof.
  intros Hwf. unfold IsValid. rewrite !andb_true_iff, !forallb_seqZ. split.
  - intros [[Hrows Hcols] Hboxes] r1 c1 r2 c2 [Hr1 Hc1] [Hr2 Hc2] [Hne Hpeer] Hnz.
    destruct Hpeer as [<-|[<-|[Hbr Hbc]]].
    + specialize (Hrows r1 ltac:(lia)).
      rewrite isValidSet_NoDup, getRow_cells, NoDup_nonzero_fmap in Hrows
        by (done || apply NoDup_seqZ).
      apply (Hrows c1 c2); rewrite ?elem_of_seqZ; try lia; congruence.
    + specialize (Hcols c1 ltac:(lia)).
      rewrite isValidSet_NoDup, getCol_cells, NoDup_nonzero_fmap in Hcols
        by apply NoDup_seqZ.
      apply (Hcols r1 r2); rewrite ?elem_of_seqZ; try lia; congruence.
    + destruct (box_index r1 Hr1) as [Hb1 Hin1], (box_index c1 Hc1) as [Hb2 Hin2].
      destruct (box_index r2 Hr2) as [_ Hin3], (box_index c2 Hc2) as [_ Hin4].
      specialize (Hboxes (r1 `div` 3)%Z Hb1).
      rewrite forallb_seqZ in Hboxes.
      specialize (Hboxes (c1 `div` 3)%Z Hb2).
      rewrite isValidSet_NoDup, getBox_cells, NoDup_nonzero_fmap in Hboxes
        by (lia || apply NoDup_box).
      apply (Hboxes (r1, c1) (r2, c2)); rewrite ?elem_of_box; try done.
      by rewrite Hbr, Hbc.
  - intros Hpeers. split; [split|].
    + intros r Hr.
      rewrite isValidSet_NoDup, getRow_cells, NoDup_nonzero_fmap
        by (done || lia || apply NoDup_seqZ).
      intros c1 c2 Hc1%elem_of_seqZ Hc2%elem_of_seqZ Hne.
      apply Hpeers; unfold in_bounds, peers; try lia.
      split; [congruence|by left].
    + intros c Hc.
      rewrite isValidSet_NoDup, getCol_cells, NoDup_nonzero_fmap
        by apply NoDup_seqZ.
      intros r1 r2 Hr1%elem_of_seqZ Hr2%elem_of_seqZ Hne.
      apply Hpeers; unfold in_bounds, peers; try lia.
      split; [congruence|right; by left].
    + intros br Hbr. rewrite forallb_seqZ. intros bc Hbc.
      rewrite isValidSet_NoDup, getBox_cells, NoDup_nonzero_fmap
        by (lia || apply NoDup_box).
      intros [r1 c1] [r2 c2] [Hr1 Hc1]%elem_of_box [Hr2 Hc2]%elem_of_box Hne.
      simpl. apply Hpeers; unfold in_bounds, peers; try lia.
      split; [done|]. right; right.
      by rewrite (box_unique r1 br), (box_unique r2 br),
                 (box_unique c1 bc), (box_unique c2 bc).
Qed.

(** *** Counting *)

Lemma positions_in_bounds p : p ∈ positions ↔ in_bounds p.1 p.2.
Proof.
  destruct p as [r c]. unfold positions, in_bounds. cbn [fst snd].
  rewrite list_elem_of_bind. split.
  - intros (row & Hin & Hrow%elem_of_seqZ).
    apply list_elem_of_bind in Hin as (col & Hin%list_elem_of_singleton
                                        & Hcol%elem_of_seqZ).
    simplify_eq. lia.
  - intros [Hr Hc]. exists r. split; [|apply elem_of_seqZ; lia].
    apply list_elem_of_bind. exists c. split; [by left|apply elem_of_seqZ; lia].
Qed.

Lemma NoDup_positions : NoDup positions.
Proof. apply (bool_decide_unpack _). vm_compute. exact I. Qed.

Lemma length_positions : length positions = 81.
Proof. reflexivity. Qed.

(** The counting loop never overflows: it adds one at most 81 times. *)
Lemma count_loop (test : Z * Z → bool) (l : list (Z * Z)) : ∀ count,
  (0 ≤ count)%Z → (count + Z.of_nat (length l) ≤ GoInt.max_int)%Z →
  foldl (λ count p, if test p then GoInt.add count 1 else count) count l =
  (count + Z.of_nat (length (filter (λ p, test p = true) l)))%Z.
Proof.
  induction l as [|p l IH]; intros count H0 Hmax; simpl in *; [lia|].
  destruct (test p) eqn:Htest.
  - rewrite filter_cons_True by done. simpl.
    rewrite add_no_overflow
      by (unfold GoInt.in_range, GoInt.min_int, GoInt.max_int in *; lia).
    rewrite IH by lia. lia.
  - rewrite filter_cons_False by congruence. apply IH; lia.
Qed.

Lemma filter_length_ext {A} (P Q : A → Prop)
    `{∀ x, Decision (P x)} `{∀ x, Decision (Q x)} (l : list A) :
  (∀ x, x ∈ l → P x ↔ Q x) → length (filter P l) = length (filter Q l).
Proof.
  induction l as [|x l IH]; intros Hext; [done|].
  rewrite !filter_cons.
  assert (P x ↔ Q x) as Hx by (apply Hext; left).
  assert (length (filter P l) = length (filter Q l)) as Hl
    by (apply IH; intros y Hy; apply Hext; by right).
  repeat case_decide; simpl; tauto || lia.
Qed.

Lemma foldl_bind {A B C} (f : A → C → A) (g : B → list C) (l : list B) : ∀ x,
  foldl f x (l ≫= g) = foldl (λ x y, foldl f x (g y)) x l.
Proof.
  induction l as [|y l IH]; intros x; [done|].
  change ((y :: l) ≫= g) with (g y ++ (l ≫= g)).
  by rewrite foldl_app, IH.
Qed.

(** The two nested loops visit the 81 positions row by row. *)
Lemma nested_loops_positions {A} (f : A → Z * Z → A) (x : A) :
  foldl (λ x row, foldl (λ x col, f x (row, col)) x (seqZ 0 9)) x (seqZ 0 9) =
  foldl f x positions.
Proof.
  unfold positions. rewrite foldl_bind. apply foldl_pointwise.
  intros y row. by rewrite foldl_bind.
Qed.

Lemma CountFilled_filled_count s : CountFilled s = Z.of_nat (filled_count s).
Proof.
  unfold CountFilled.
  rewrite (nested_loops_positions
             (λ count p, if negb (cell (Board s) p.1 p.2 =? 0)%Z
                         then GoInt.add count 1 else count)).
  rewrite count_loop by (rewrite ?length_positions; unfold GoInt.max_int; lia).
  unfold filled_count. rewrite Z.add_0_l. f_equal.
  apply filter_length_ext. intros p _.
  destruct (Z.eqb_spec (cell (Board s) p.1 p.2) 0); simpl; split; congruence.
Qed.

Lemma filter_length_disjoint_or {A} (P Q R : A → Prop)
    `{∀ x, Decision (P x)} `{∀ x, Decision (Q x)} `{∀ x, Decision (R x)}
    (l : list A) :
  (∀ x, x ∈ l → R x ↔ P x ∨ Q x) → (∀ x, x ∈ l → P x → Q x → False) →
  length (filter R l) = length (filter P l) + length (filter Q l).
Proof.
  induction l as [|x l IH]; intros Hor Hdisj; [done|].
  rewrite !filter_cons.
  assert (R x ↔ P x ∨ Q x) as Hx by (apply Hor; left).
  assert (P x → Q x → False) as Hd by (apply Hdisj; left).
  assert (length (filter R l) = length (filter P l) + length (filter Q l)) as Hl.
  { apply IH; intros y Hy; [apply Hor|apply Hdisj]; by right. }
  repeat case_decide; simpl; tauto || lia.
Qed.


Lemma filter_length_eq_one {A} `{EqDecision A} (x0 : A) (l : list A) :
  NoDup l → x0 ∈ l → length (filter (λ x, x = x0) l) = 1.
Proof.
  induction l as [|x l IH]; intros Hnd Hin; [by apply elem_of_nil in Hin|].
  apply NoDup_cons in Hnd as [Hx Hnd]. rewrite filter_cons.
  case_decide as Heq.
  - subst x. simpl. f_equal.
    assert (filter (λ x, x = x0) l = []) as ->; [|done].
    clear IH Hin Hnd. induction l as [|y l IH]; [done|].
    rewrite filter_cons_False by (intros ->; apply Hx; left).
    apply IH. intros Hin. apply Hx. by right.
  - apply IH; [done|]. apply elem_of_cons in Hin as [->|Hin]; done.
Qed.

Lemma filter_length_le {A} (P : A → Prop) `{∀ x, Decision (P x)} (l : list A) :
  length (filter P l) ≤ length l.
Proof.
  induction l as [|x l IH]; [done|]. rewrite filter_cons.
  case_decide; simpl; lia.
Qed.

Lemma filter_length_all {A} (P : A → Prop) `{∀ x, Decision (P x)} (l : list A) :
  length (filter P l) = length l ↔ ∀ x, x ∈ l → P x.
Proof.
  induction l as [|x l IH]; simpl.
  - split; [|done]. intros _ x Hx. by apply elem_of_nil in Hx.
  - rewrite filter_cons. pose proof (filter_length_le P l) as Hle.
    case_decide as HP; simpl.
    + split.
      * intros Hlen y [->|Hy]%elem_of_cons; [done|]. apply IH; [lia|done].
      * intros Hall. f_equal. apply IH. intros y Hy. apply Hall. by right.
    + split; [lia|]. intros Hall. destruct HP. apply Hall. left.
Qed.


Lemma filled_count_le s : filled_count s ≤ 81.
Proof.
  unfold filled_count. rewrite <- length_positions. apply filter_length_le.
Qed.

Lemma merge_cell_nonzero (a b : Z) :
  merge_cell a b ≠ 0%Z ↔ a ≠ 0%Z ∨ b ≠ 0%Z.
Proof.
  rewrite merge_cell_right_biased. case_decide; split; intros; try tauto.
  all: destruct (decide (a = 0%Z)); tauto || congruence.
Qed.

Lemma merge_cell_same_right (a b : Z) :
  merge_cell (merge_cell a b) b = merge_cell a b.
Proof. rewrite !merge_cell_right_biased. repeat case_decide; congruence. Qed.

Lemma merge_cell_zero_r (a : Z) : merge_cell a 0 = a.
Proof. rewrite merge_cell_right_biased. by rewrite decide_True. Qed.

Lemma merge_cell_zero_l (b : Z) : merge_cell 0 b = b.
Proof. rewrite merge_cell_right_biased. case_decide; congruence. Qed.

Lemma wf_empty : wf empty.
Proof. by apply wfb_true. Qed.

Lemma cell_empty row col : cell (Board empty) row col = 0%Z.
Proof.
  unfold cell, empty. cbn [Board].
  destruct (replicate 9 (replicate 9 0%Z) !! Z.to_nat row) as [cells|] eqn:Hrow;
    [|done]. cbn [mbind option_bind].
  apply lookup_replicate in Hrow as [-> _].
  destruct (replicate 9 0%Z !! Z.to_nat col) as [v|] eqn:Hcol; [|done].
  by apply lookup_replicate in Hcol as [-> _].
Qed.

(** The cells of the result of [PlaceNumber]. *)
Lemma PlaceNumber_cell s row col num r c :
  wf s → in_bounds r c →
  cell (Board (PlaceNumber s row col num)) r c =
  if decide ((r, c) = (row, col) ∧ allowed num ∧ cell (Board s) row col = 0%Z)
  then num else cell (Board s) r c.
Proof.
  intros Hwf Hrc.
  destruct (decide (in_bounds row col ∧ allowed num ∧
                    cell (Board s) row col = 0%Z)) as [(Hb & Ha & Hz)|Hrej].
  - rewrite PlaceNumber_accepts by done. simpl.
    rewrite cell_set_cell by done.
    destruct (decide (r = row ∧ c = col)) as [[-> ->]|Hne].
    + by rewrite decide_True.
    + rewrite decide_False; [done|]. intros [[= -> ->] _]. tauto.
  - rewrite PlaceNumber_rejects.
    2:{ destruct (decide (in_bounds row col)); [|tauto].
        destruct (decide (allowed num)); [|tauto].
        destruct (decide (cell (Board s) row col = 0%Z)); tauto. }
    rewrite decide_False; [done|]. intros ([= -> ->] & Ha & Hz). tauto.
Qed.

End GridInspection.

Section GridProperties.
Import sudokuexample.
Implicit Types (s o : SudokuState).

(** X1.  [isValidSet] answers [true] exactly when the non-zero numbers of
    its argument are pairwise distinct; zeros (empty cells) are skipped and
    never count as duplicates. *)
Theorem isValidSet_iff_distinct_nonzero (nums : list Z) :
  isValidSet nums = true ↔ NoDup (filter (λ num, num ≠ 0%Z) nums).
Proof. apply isValidSet_NoDup. Qed.

(** X2.  [IsValid] answers [true] exactly when no two distinct cells of one
    row, one column or one 3 x 3 box hold the same non-zero number. *)
Theorem IsValid_iff_no_equal_peers s :
  wf s →
  IsValid s = true ↔
  ∀ r1 c1 r2 c2, in_bounds r1 c1 → in_bounds r2 c2 → peers r1 c1 r2 c2 →
    cell (Board s) r1 c1 ≠ 0%Z → cell (Board s) r1 c1 ≠ cell (Board s) r2 c2.
Proof. apply IsValid_peers. Qed.

Lemma IsValid_iff_no_equal_peers_witness :
  let s := PlaceNumber (PlaceNumber empty 0 0 5) 1 1 5 in
  IsValid s = false.
Proof.
  intros s. destruct (IsValid s) eqn:Hvalid; [|done].
  assert (wf s) as Hwf by (by apply wfb_true).
  destruct (proj1 (IsValid_iff_no_equal_peers s Hwf) Hvalid 0 0 1 1)%Z.
  - unfold in_bounds; lia.
  - unfold in_bounds; lia.
  - split; [congruence|]. right; right. by vm_compute.
  - by vm_compute.
  - by vm_compute.
Defined.

(** X3.  [CountFilled] returns the number of positions whose cell is
    non-zero, a number between 0 and 81; its counter cannot overflow. *)
Theorem CountFilled_counts_nonzero_cells s :
  CountFilled s = Z.of_nat (filled_count s) ∧ (0 ≤ CountFilled s ≤ 81)%Z.
Proof.
  rewrite CountFilled_filled_count. split; [done|].
  pose proof (filled_count_le s). lia.
Qed.

(** X4.  [IsSolved] answers [true] exactly when [IsValid] does and all 81
    cells are filled. *)
Theorem IsSolved_iff_valid_and_full s :
  IsSolved s = true ↔ IsValid s = true ∧ CountFilled s = 81%Z.
Proof.
  rewrite CountFilled_filled_count. unfold IsSolved.
  assert (forallb (λ row, forallb (λ col, negb (cell (Board s) row col =? 0)%Z)
                                  (seqZ 0 9)) (seqZ 0 9) = true
          ↔ filled_count s = 81) as Hfull.
  { unfold filled_count. rewrite <- length_positions.
    rewrite filter_length_all, forallb_seqZ. split.
    - intros Hall [r c] [Hr Hc]%positions_in_bounds. cbn [fst snd] in *.
      specialize (Hall r ltac:(lia)). rewrite forallb_seqZ in Hall.
      specialize (Hall c ltac:(lia)).
      by destruct (Z.eqb_spec (cell (Board s) r c) 0).
    - intros Hall r Hr. rewrite forallb_seqZ. intros c Hc.
      specialize (Hall (r, c)). cbn [fst snd] in Hall.
      destruct (Z.eqb_spec (cell (Board s) r c) 0); [|done].
      destruct Hall; [|done]. apply positions_in_bounds.
      unfold in_bounds; cbn [fst snd]; lia. }
  destruct (IsValid s); simpl.
  - rewrite Hfull. split; [intros ->; by split|intros [_ ?]; lia].
  - split; [done|]. by intros [? _].
Qed.

(** X5.  When no cell is filled in both boards, the merged board has as
    many filled cells as the two boards together. *)
Theorem CountFilled_Merge_disjoint s o :
  wf s → wf o → cells_disjoint s o →
  CountFilled (Merge s o) = (CountFilled s + CountFilled o)%Z.
Proof.
  intros Hs Ho Hdisj. rewrite !CountFilled_filled_count.
  rewrite <- Nat2Z.inj_add. f_equal. unfold filled_count.
  apply filter_length_disjoint_or.
  - intros p Hp%positions_in_bounds.
    rewrite Merge_cell by done. apply merge_cell_nonzero.
  - intros p Hp%positions_in_bounds Hnz1 Hnz2.
    destruct (Hdisj _ _ Hp); done.
Qed.

Lemma CountFilled_Merge_disjoint_witness :
  let A := PlaceNumber (PlaceNumber (PlaceNumber empty 0 0 5) 0 1 3) 1 0 6 in
  let B := PlaceNumber (PlaceNumber (PlaceNumber empty 7 7 9) 8 8 1) 8 7 4 in
  CountFilled (Merge A B) = 6%Z.
Proof.
  intros A B. rewrite (CountFilled_Merge_disjoint A B); [by vm_compute|..].
  - by apply wfb_true.
  - by apply wfb_true.
  - by apply cells_disjointb_true.
Defined.



(** X7.  An accepted placement of a non-zero number adds exactly one
    filled cell; every other call of [PlaceNumber] (rejected, or placing 0)
    leaves the count unchanged. *)
Theorem CountFilled_PlaceNumber s (row col num : Z) :
  wf s →
  CountFilled (PlaceNumber s row col num) =
  if decide (in_bounds row col ∧ allowed num ∧ num ≠ 0%Z ∧
             cell (Board s) row col = 0%Z)
  then (CountFilled s + 1)%Z else CountFilled s.
Proof.
  intros Hwf. rewrite !CountFilled_filled_count. unfold filled_count.
  case_decide as Hacc.
  - destruct Hacc as (Hb & Ha & Hnz & Hz).
    rewrite <- (Nat2Z.inj_add _ 1). f_equal.
    rewrite <- (filter_length_eq_one (row, col) positions NoDup_positions)
      by (by apply positions_in_bounds).
    apply filter_length_disjoint_or.
    + intros [r c] Hp%positions_in_bounds. cbn [fst snd] in *.
      rewrite PlaceNumber_cell by done. case_decide as Heq.
      * destruct Heq as [[= -> ->] _]. split; [by right|done].
      * split; [by left|]. intros [?|[= -> ->]]; [done|]. tauto.
    + intros [r c] _ Hnz' [= -> ->]. done.
  - f_equal. apply filter_length_ext.
    intros [r c] Hp%positions_in_bounds. cbn [fst snd] in *.
    rewrite PlaceNumber_cell by done. case_decide as Heq; [|done].
    destruct Heq as ([= -> ->] & Ha & Hz). rewrite Hz.
    destruct (decide (num = 0%Z)); [|tauto]. by subst.
Qed.

Lemma CountFilled_PlaceNumber_witness :
  let s := PlaceNumber empty 0 0 5 in
  CountFilled (PlaceNumber s 1 1 3) = 2%Z ∧
  CountFilled (PlaceNumber s 0 0 7) = 1%Z ∧
  CountFilled (PlaceNumber s 1 1 0) = 1%Z.
Proof.
  intros s. assert (wf s) as Hwf by (by apply wfb_true).
  rewrite !CountFilled_PlaceNumber by done. by vm_compute.
Defined.

(** X8.  The empty board is a two-sided identity of [Merge]. *)
Theorem Merge_empty_identity s :
  wf s → Merge s empty = s ∧ Merge empty s = s.
Proof.
  intros Hwf. split.
  - apply SudokuState_ext; [by apply Merge_wf|done|].
    intros r c Hrc. rewrite Merge_cell, cell_empty by done.
    apply merge_cell_zero_r.
  - apply SudokuState_ext; [apply Merge_wf, wf_empty|done|].
    intros r c Hrc. rewrite Merge_cell, cell_empty by (done || apply wf_empty).
    apply merge_cell_zero_l.
Qed.

Lemma Merge_empty_identity_witness :
  let s := PlaceNumber (PlaceNumber empty 0 0 5) 4 4 9 in
  Merge s empty = s ∧ Merge empty s = s.
Proof. intros s. apply Merge_empty_identity. by apply wfb_true. Defined.

(** X9.  Merging the same incoming board a second time changes nothing,
    whatever the two boards hold (a retried import is harmless). *)
Theorem Merge_retry_is_noop s o :
  wf s → Merge (Merge s o) o = Merge s o.
Proof.
  intros Hwf. apply SudokuState_ext; [by do 2 apply Merge_wf|by apply Merge_wf|].
  intros r c Hrc. rewrite !Merge_cell by (done || by apply Merge_wf).
  apply merge_cell_same_right.
Qed.

Lemma Merge_retry_is_noop_witness :
  let s := PlaceNumber (PlaceNumber empty 0 0 5) 0 1 3 in
  let o := PlaceNumber (PlaceNumber empty 0 0 7) 7 7 9 in
  Merge (Merge s o) o = Merge s o.
Proof. intros s o. apply Merge_retry_is_noop. by apply wfb_true. Defined.

(** X10.  Placements at two different positions commute: the resulting
    board does not depend on their order, whether or not each of them is
    accepted. *)
Theorem PlaceNumber_commutes s (r1 c1 n1 r2 c2 n2 : Z) :
  wf s → (r1, c1) ≠ (r2, c2) →
  PlaceNumber (PlaceNumber s r1 c1 n1) r2 c2 n2 =
  PlaceNumber (PlaceNumber s r2 c2 n2) r1 c1 n1.
Proof.
  intros Hwf Hne.
  destruct (decide (in_bounds r1 c1)) as [Hb1|Hb1]; [|by rewrite
    (PlaceNumber_rejects s r1 c1 n1), (PlaceNumber_rejects _ r1 c1 n1) by auto].
  destruct (decide (in_bounds r2 c2)) as [Hb2|Hb2]; [|by rewrite
    (PlaceNumber_rejects s r2 c2 n2), (PlaceNumber_rejects _ r2 c2 n2) by auto].
  apply SudokuState_ext; [by do 2 apply PlaceNumber_wf..|].
  intros r c Hrc.
  rewrite !PlaceNumber_cell by (done || by apply PlaceNumber_wf).
  rewrite (decide_False (P := (r2, c2) = (r1, c1) ∧ _)) by (intros [? _]; congruence).
  rewrite (decide_False (P := (r1, c1) = (r2, c2) ∧ _)) by (intros [? _]; congruence).
  repeat case_decide; try done; destruct_and?; congruence.
Qed.

Lemma PlaceNumber_commutes_witness :
  PlaceNumber (PlaceNumber empty 0 0 5) 1 1 3 =
  PlaceNumber (PlaceNumber empty 1 1 3) 0 0 5.
Proof. apply PlaceNumber_commutes; [apply wf_empty|congruence]. Defined.

(** X11.  [PlaceNumber] does not check the rules of the puzzle: placing the
    same number 1..9 into two empty cells of one row is accepted both times
    and yields a board that [IsValid] rejects. *)
Theorem PlaceNumber_accepts_rule_breaking_placement s (row c1 c2 num : Z) :
  wf s → in_bounds row c1 → in_bounds row c2 → c1 ≠ c2 → (1 ≤ num ≤ 9)%Z →
  cell (Board s) row c1 = 0%Z → cell (Board s) row c2 = 0%Z →
  let s' := PlaceNumber (PlaceNumber s row c1 num) row c2 num in
  cell (Board s') row c1 = num ∧ cell (Board s') row c2 = num ∧
  IsValid s' = false.
Proof.
  intros Hwf Hb1 Hb2 Hne Hnum Hz1 Hz2 s'.
  assert (allowed num) as Ha by (unfold allowed; lia).
  assert (wf s') as Hwf' by (by do 2 apply PlaceNumber_wf).
  assert (cell (Board s') row c1 = num) as H1.
  { subst s'. rewrite !PlaceNumber_cell by (done || by apply PlaceNumber_wf).
    rewrite decide_False by (intros [[= ?] _]; done).
    by rewrite decide_True. }
  assert (cell (Board s') row c2 = num) as H2.
  { subst s'. rewrite PlaceNumber_cell by (done || by apply PlaceNumber_wf).
    rewrite decide_True; [done|]. split; [done|]. split; [done|].
    rewrite PlaceNumber_cell by done.
    by rewrite decide_False by (intros [[= ?] _]; done). }
  split; [done|]. split; [done|].
  destruct (IsValid s') eqn:Hvalid; [|done].
  destruct (proj1 (IsValid_peers s' Hwf') Hvalid row c1 row c2); try done.
  - split; [congruence|by left].
  - lia.
  - congruence.
Qed.

Lemma PlaceNumber_accepts_rule_breaking_placement_witness :
  IsValid (PlaceNumber (PlaceNumber empty 0 0 5) 0 8 5) = false.
Proof.
  apply (PlaceNumber_accepts_rule_breaking_placement empty 0 0 8 5);
    try apply wf_empty; try apply cell_empty; unfold in_bounds; lia.
Defined.

(** X12.  An accepted placement is the merge with the board that holds just
    that one number: [PlaceNumber] is a special case of [Merge]. *)
Theorem PlaceNumber_is_Merge_with_single_cell s (row col num : Z) :
  wf s → in_bounds row col → allowed num → cell (Board s) row col = 0%Z →
  PlaceNumber s row col num = Merge s (PlaceNumber empty row col num).
Proof.
  intros Hwf Hb Ha Hz.
  apply SudokuState_ext; [by apply PlaceNumber_wf|by apply Merge_wf|].
  intros r c Hrc. rewrite Merge_cell by done.
  rewrite !PlaceNumber_cell by (done || apply wf_empty).
  rewrite !cell_empty.
  destruct (decide ((r, c) = (row, col))) as [[= -> ->]|Hne].
  - rewrite !decide_True by done. by rewrite Hz, merge_cell_zero_l.
  - rewrite !decide_False by (intros [? _]; done). by rewrite merge_cell_zero_r.
Qed.

Lemma PlaceNumber_is_Merge_with_single_cell_witness :
  let s := PlaceNumber empty 0 0 5 in
  PlaceNumber s 1 1 3 = Merge s (PlaceNumber empty 1 1 3).
Proof.
  intros s. apply PlaceNumber_is_Merge_with_single_cell.
  - by apply wfb_true.
  - unfold in_bounds; lia.
  - unfold allowed; lia.
  - reflexivity.
Defined.

End GridProperties.

(** ** The record collection: invariants, [HandleVerify] *)

Section RecordFacts.
Import httpserver.
Implicit Types (l k : list Todo) (X : gset Z) (s a b : TodoState).

Lemma keep_sublist l : ∀ X, keep X l `sublist_of` l.
Proof.
  induction l as [|t l IH]; intros X; simpl; [done|].
  case_decide; [by apply sublist_cons|by apply sublist_skip].
Qed.

Lemma keep_id_iff_NoDup l : keep ∅ l = l ↔ NoDup (ids l).
Proof.
  split.
  - intros <-. apply NoDup_ids_keep.
  - intros Hnd. apply keep_NoDup_id; [done|set_solver].
Qed.

Lemma idset_Merge a b :
  idset (Todos (Merge a b)) = idset (Todos a) ∪ idset (Todos b).
Proof. rewrite Merge_Todos, idset_keep, idset_app. set_solver. Qed.

Lemma elem_of_idset_ids id l : id ∈ idset l ↔ id ∈ ids l.
Proof. unfold idset. by rewrite elem_of_list_to_set. Qed.

(** *** Arithmetic of the counter *)

Lemma wrap_wrap_add (x y : Z) :
  GoInt.wrap (GoInt.wrap x + y) = GoInt.wrap (x + y).
Proof.
  unfold GoInt.wrap. f_equal.
  replace ((x + 2 ^ 63) `mod` 2 ^ 64 - 2 ^ 63 + y + 2 ^ 63)%Z
    with ((x + 2 ^ 63) `mod` 2 ^ 64 + y)%Z by lia.
  rewrite Zplus_mod_idemp_l. f_equal. lia.
Qed.

Lemma wrap_eq_mod (x y : Z) :
  GoInt.wrap x = GoInt.wrap y → (x `mod` 2 ^ 64 = y `mod` 2 ^ 64)%Z.
Proof.
  unfold GoInt.wrap. intros Heq.
  assert ((x + 2 ^ 63) `mod` 2 ^ 64 = (y + 2 ^ 63) `mod` 2 ^ 64)%Z as Hm by lia.
  replace x with ((x + 2 ^ 63) + - 2 ^ 63)%Z by lia.
  replace y with ((y + 2 ^ 63) + - 2 ^ 63)%Z by lia.
  rewrite <- (Zplus_mod_idemp_l (x + 2 ^ 63)), <- (Zplus_mod_idemp_l (y + 2 ^ 63)).
  by rewrite Hm.
Qed.

(** *** Runs of [Add] *)

Lemma AddAll_snoc s reqs title now :
  AddAll s (reqs ++ [(title, now)]) = Add (AddAll s reqs) title now.
Proof. unfold AddAll. by rewrite foldl_app. Qed.

Lemma AddAll_length reqs : ∀ s,
  length (Todos (AddAll s reqs)) = length (Todos s) + length reqs.
Proof.
  induction reqs as [|[title now] reqs IH]; intros s; simpl; [lia|].
  unfold AddAll in *. simpl. rewrite IH, Add_Todos, length_app. simpl. lia.
Qed.

Lemma AddAll_NextID_wrap reqs : ∀ s,
  GoInt.wrap (NextID (AddAll s reqs)) =
  GoInt.wrap (NextID s + Z.of_nat (length reqs))%Z.
Proof.
  induction reqs as [|[title now] reqs IH]; intros s.
  - simpl. by rewrite Z.add_0_r.
  - change (AddAll s ((title, now) :: reqs))
      with (AddAll (Add s title now) reqs).
    rewrite IH, Add_NextID. unfold GoInt.add. rewrite wrap_wrap_add.
    f_equal. simpl length. lia.
Qed.

Lemma Add_ids s title now :
  ids (Todos (Add s title now)) = ids (Todos s) ++ [NextID s].
Proof. rewrite Add_Todos. unfold ids. by rewrite fmap_app. Qed.

Lemma Add_ids_fresh s title now :
  ids_fresh s → GoInt.in_range (NextID s) → (NextID s < GoInt.max_int)%Z →
  ids_fresh (Add s title now) ∧
  NextID (Add s title now) = (NextID s + 1)%Z.
Proof.
  intros [Hnd Hlt] Hrange Hmax.
  assert (NextID (Add s title now) = (NextID s + 1)%Z) as Hnext.
  { rewrite Add_NextID. apply add_no_overflow.
    unfold GoInt.in_range, GoInt.min_int, GoInt.max_int in *. lia. }
  split; [|done]. unfold ids_fresh. rewrite Add_ids, Hnext. split.
  - apply NoDup_app. split; [done|]. split; [|apply NoDup_singleton].
    intros id Hin ->%list_elem_of_singleton.
    rewrite Forall_forall in Hlt. apply Hlt in Hin. lia.
  - apply Forall_app. split.
    + eapply Forall_impl; [done|]. simpl. lia.
    + apply Forall_singleton. lia.
Qed.

Lemma AddAll_ids_fresh reqs : ∀ s,
  ids_fresh s → GoInt.in_range (NextID s) →
  (NextID s + Z.of_nat (length reqs) ≤ GoInt.max_int)%Z →
  ids_fresh (AddAll s reqs) ∧
  NextID (AddAll s reqs) = (NextID s + Z.of_nat (length reqs))%Z.
Proof.
  induction reqs as [|[title now] reqs IH]; intros s Hfresh Hrange Hmax.
  - simpl. split; [done|lia].
  - change (AddAll s ((title, now) :: reqs))
      with (AddAll (Add s title now) reqs).
    simpl length in Hmax.
    destruct (Add_ids_fresh s title now Hfresh Hrange) as [Hfresh' Hnext]; [lia|].
    destruct (IH (Add s title now)) as [Hf Hn]; [done|..].
    + rewrite Hnext.
      unfold GoInt.in_range, GoInt.min_int, GoInt.max_int in *. lia.
    + rewrite Hnext. lia.
    + split; [done|]. rewrite Hn, Hnext. simpl length. lia.
Qed.

(** *** The duplicate check of [HandleVerify] *)

Lemma foldl_verify_step l : ∀ (c : bool) (seen : gmap Z bool) X,
  (∀ id, seen_get seen id = true ↔ id ∈ X) →
  (foldl verify_step (c, seen) l).1 = true ↔
  c = true ∧ NoDup (ids l) ∧ ∀ id, id ∈ ids l → id ∉ X.
Proof.
  induction l as [|t l IH]; intros c seen X Hseen; simpl.
  - split; [intros ->|by intros [-> _]]. split; [done|]. split; [constructor|].
    intros id Hin. by apply elem_of_nil in Hin.
  - rewrite (IH _ (<[ID t := true]> seen) ({[ID t]} ∪ X)).
    2:{ intros id. unfold seen_get. rewrite lookup_insert.
        case_decide as Heq; simpl; [subst; set_solver|].
        fold (seen_get seen id). rewrite Hseen. set_solver. }
    unfold ids; simpl. fold (ids l). rewrite NoDup_cons.
    destruct (seen_get seen (ID t)) eqn:Hget.
    + apply Hseen in Hget. split; [by intros [? _]|].
      intros (_ & _ & Hfresh). destruct (Hfresh (ID t)); [left|done].
    + assert (ID t ∉ X) as HnX.
      { intros Hin. apply Hseen in Hin. congruence. }
      split.
      * intros (-> & Hnd & Hfresh). split; [done|]. split; [split; [|done]|].
        -- intros Hin. apply Hfresh in Hin. set_solver.
        -- intros id [->|Hin]%elem_of_cons; [done|].
           apply Hfresh in Hin. set_solver.
      * intros (-> & [Hnotin Hnd] & Hfresh). split; [done|]. split; [done|].
        intros id Hin. apply not_elem_of_union. split.
        -- intros ->%elem_of_singleton. done.
        -- apply Hfresh. by right.
Qed.

Lemma HandleVerify_consistent s :
  consistent (HandleVerify s) = true ↔
  NextID s = GoInt.add (Z.of_nat (length (Todos s))) 1 ∧ NoDup (ids (Todos s)).
Proof.
  unfold HandleVerify; simpl.
  rewrite (foldl_verify_step _ _ ∅ ∅).
  2:{ intros id. unfold seen_get. rewrite lookup_empty. simpl. set_solver. }
  rewrite Z.eqb_eq. split; [by intros (? & ? & _)|].
  intros [??]. split; [done|]. split; [done|set_solver].
Qed.

End RecordFacts.

Section RecordProperties.
Import httpserver.
Implicit Types (s a b : TodoState).

(** X13.  Whatever the operands hold, the records of [a.Merge(b)] have
    pairwise distinct IDs, keep the order they had in [a.Todos] followed by
    [b.Todos], and carry exactly the IDs of the two operands. *)
Theorem Merge_result_distinct_ordered a b :
  NoDup (ids (Todos (Merge a b))) ∧
  Todos (Merge a b) `sublist_of` (Todos a ++ Todos b) ∧
  idset (Todos (Merge a b)) = idset (Todos a) ∪ idset (Todos b).
Proof.
  split; [|split].
  - rewrite Merge_Todos. apply NoDup_ids_keep.
  - rewrite Merge_Todos. apply keep_sublist.
  - apply idset_Merge.
Qed.

(** X14.  [Merge] loses no record exactly when all IDs of the two operands
    together are pairwise distinct: only then is the result the
    concatenation of the two sequences. *)
Theorem Merge_lossless_iff_distinct_IDs a b :
  Todos (Merge a b) = Todos a ++ Todos b ↔ NoDup (ids (Todos a ++ Todos b)).
Proof. rewrite Merge_Todos. apply keep_id_iff_NoDup. Qed.

(** X15.  Merging the same incoming state a second time changes nothing,
    whatever the two states hold. *)
Theorem Todo_Merge_retry_is_noop a b : Merge (Merge a b) b = Merge a b.
Proof.
  assert (Todos (Merge (Merge a b) b) = Todos (Merge a b)) as HT.
  { rewrite (Merge_Todos (Merge a b) b), keep_app.
    rewrite (keep_covered (Todos b)) by (rewrite idset_Merge; set_solver).
    rewrite app_nil_r. apply keep_NoDup_id; [|set_solver].
    rewrite Merge_Todos. apply NoDup_ids_keep. }
  assert (NextID (Merge (Merge a b) b) = NextID (Merge a b)) as HN.
  { rewrite !Merge_NextID. lia. }
  destruct (Merge (Merge a b) b), (Merge a b). simpl in *. congruence.
Qed.

(** X16.  [Add] keeps the snapshot invariant (IDs pairwise distinct and
    below [NextID]) as long as the counter has not reached the largest
    [int], and then advances the counter by exactly one. *)
Theorem Add_preserves_fresh_IDs s title now :
  ids_fresh s → GoInt.in_range (NextID s) → (NextID s < GoInt.max_int)%Z →
  ids_fresh (Add s title now) ∧
  NextID (Add s title now) = (NextID s + 1)%Z.
Proof. apply Add_ids_fresh. Qed.

Lemma Add_preserves_fresh_IDs_witness :
  ids_fresh (Add (Add NewServer_state "a" 0%Z) "b" 1%Z).
Proof.
  apply (Add_preserves_fresh_IDs (Add NewServer_state "a" 0%Z) "b" 1%Z).
  - split; [by apply (bool_decide_unpack _)|]. by repeat constructor.
  - by vm_compute.
  - by vm_compute.
Defined.

(** X17.  [Merge] establishes the snapshot invariant from weaker input:
    if in each operand every ID lies below that operand's [NextID], the
    merged state has pairwise distinct IDs, all below its [NextID]. *)
Theorem Merge_establishes_fresh_IDs a b :
  Forall (λ id, id < NextID a)%Z (ids (Todos a)) →
  Forall (λ id, id < NextID b)%Z (ids (Todos b)) →
  ids_fresh (Merge a b).
Proof.
  intros Ha Hb. split; [rewrite Merge_Todos; apply NoDup_ids_keep|].
  rewrite Merge_NextID. apply Forall_forall. intros id Hin.
  apply elem_of_idset_ids in Hin. rewrite idset_Merge in Hin.
  rewrite Forall_forall in Ha, Hb.
  apply elem_of_union in Hin as [Hin|Hin]; apply elem_of_idset_ids in Hin.
  - apply Ha in Hin. lia.
  - apply Hb in Hin. lia.
Qed.

Lemma Merge_establishes_fresh_IDs_witness :
  let a := AddAll (NewServerWithIDMultiplier_state 1) [("A-1", 0%Z); ("A-2", 1%Z)] in
  let b := AddAll (NewServerWithIDMultiplier_state 2) [("B-1", 2%Z)] in
  ids_fresh (Merge a b).
Proof.
  intros a b.
  apply Merge_establishes_fresh_IDs; repeat constructor; by vm_compute.
Defined.

(** X18.  [HandleVerify] reports [consistent] exactly when the counter is
    one more than the number of records and no ID occurs twice. *)
Theorem HandleVerify_consistent_iff s :
  consistent (HandleVerify s) = true ↔
  NextID s = GoInt.add (Z.of_nat (length (Todos s))) 1 ∧ NoDup (ids (Todos s)).
Proof. apply HandleVerify_consistent. Qed.

(** X19.  A server created by [NewServer] and driven by any sequence of
    fewer than 2^63 - 1 [Add] calls is reported consistent. *)
Theorem HandleVerify_after_Adds (reqs : list (string * Time)) :
  (Z.of_nat (length reqs) < GoInt.max_int)%Z →
  consistent (HandleVerify (AddAll NewServer_state reqs)) = true.
Proof.
  intros Hlen. apply HandleVerify_consistent.
  destruct (AddAll_ids_fresh reqs NewServer_state) as [[Hnd _] Hnext].
  - split; [constructor|]. constructor.
  - by vm_compute.
  - simpl. lia.
  - split; [|done]. rewrite Hnext, AddAll_length. simpl.
    rewrite add_no_overflow; [lia|].
    unfold GoInt.in_range, GoInt.min_int, GoInt.max_int in *. lia.
Qed.

Lemma HandleVerify_after_Adds_witness :
  consistent (HandleVerify (AddAll NewServer_state
                              [("a", 0%Z); ("b", 1%Z); ("c", 2%Z)])) = true.
Proof. apply HandleVerify_after_Adds. by vm_compute. Defined.

(** X20.  A server created by [NewServerWithIDMultiplier] is never reported
    consistent, whatever the multiplier and however many [Add] calls it has
    served: its counter starts at [idMult * 100], which [HandleVerify]'s
    expectation [len(todos) + 1] does not account for. *)
Theorem HandleVerify_rejects_ID_bands (idMult : Z) (reqs : list (string * Time)) :
  consistent (HandleVerify
                (AddAll (NewServerWithIDMultiplier_state idMult) reqs)) = false.
Proof.
  destruct (consistent _) eqn:Hc; [|done]. exfalso.
  apply HandleVerify_consistent in Hc as [Hnext _].
  rewrite AddAll_length in Hnext. simpl in Hnext.
  pose proof (AddAll_NextID_wrap reqs (NewServerWithIDMultiplier_state idMult))
    as Hwrap.
  rewrite Hnext in Hwrap. simpl in Hwrap. unfold GoInt.add in Hwrap.
  rewrite wrap_wrap_add in Hwrap.
  rewrite (wrap_in_range (GoInt.wrap _)) in Hwrap by apply wrap_range.
  apply wrap_eq_mod in Hwrap.
  set (n := Z.of_nat (length reqs)) in *.
  pose proof (Z.div_mod (n + 1) (2 ^ 64) ltac:(lia)) as H1.
  pose proof (Z.div_mod (idMult * 100 + n) (2 ^ 64) ltac:(lia)) as H2.
  rewrite Hwrap in H1.
  assert ((n + 1) - (idMult * 100 + n) =
          2 * (2 ^ 63 * ((n + 1) `div` 2 ^ 64
                         - (idMult * 100 + n) `div` 2 ^ 64)))%Z as H3 by lia.
  lia.
Qed.

(** X21.  [HandleVerify] does not notice records lost to an ID collision:
    when a consistent state absorbs a state whose IDs it already carries
    and whose counter is not ahead, the merge is the receiving state itself,
    every incoming record is dropped, and the result is reported
    consistent. *)
Theorem HandleVerify_misses_collision_loss a b :
  consistent (HandleVerify a) = true →
  idset (Todos b) ⊆ idset (Todos a) → (NextID b ≤ NextID a)%Z →
  Merge a b = a ∧ consistent (HandleVerify (Merge a b)) = true.
Proof.
  intros Hc Hsub Hle.
  assert (Merge a b = a) as Heq.
  { apply HandleVerify_consistent in Hc as [_ Hnd].
    pose proof (Merge_collision a b Hnd Hsub) as HT.
    pose proof (Merge_NextID a b) as HN.
    destruct (Merge a b), a. simpl in *. f_equal; [done|lia]. }
  by rewrite Heq.
Qed.

Lemma HandleVerify_misses_collision_loss_witness :
  let reqsA := [("A-1", 1%Z); ("A-2", 2%Z); ("A-3", 3%Z)] in
  let reqsB := [("B-1", 1%Z); ("B-2", 2%Z); ("B-3", 3%Z)] in
  let A := AddAll NewServer_state reqsA in
  let B := AddAll NewServer_state reqsB in
  Merge A B = A ∧ consistent (HandleVerify (Merge A B)) = true.
Proof.
  intros reqsA reqsB A B. apply HandleVerify_misses_collision_loss.
  - reflexivity.
  - by apply (bool_decide_unpack _).
  - by vm_compute.
Defined.

End RecordProperties.

(** ** The handlers under interleaving *)

Section HandlerProperties.
Import server.
Context {Snapshot PanicValue : Type}.
Implicit Types (g : goroutine Snapshot PanicValue)
  (gs : list (goroutine Snapshot PanicValue))
  (sys : system Snapshot PanicValue) (sched : list nat) (i : nat).

Lemma sum_list_insert (f : goroutine Snapshot PanicValue → nat) gs i g g' :
  gs !! i = Some g →
  sum_list (f <$> <[i := g']> gs) + f g = sum_list (f <$> gs) + f g'.
Proof.
  revert i. induction gs as [|g0 gs IH]; intros [|i] Hi; simplify_eq/=.
  - lia.
  - specialize (IH i Hi). lia.
Qed.

Lemma sys_step_lock_consistent i sys e sys1 :
  lock_consistent sys → sys_step i sys = Some (e, sys1) → lock_consistent sys1.
Proof.
  intros (Hr & Hw & Hrw) Hstep. unfold sys_step in Hstep.
  destruct (pool sys !! i) as [g|] eqn:Hg; [|done]. simpl in Hstep.
  destruct (step g (srv sys)) as [[[ev g'] sv']|] eqn:Hs; [|done].
  simpl in Hstep. simplify_eq.
  pose proof (sum_list_insert (holds_read ∘ at_pc) _ _ _ g' Hg) as Hsr.
  pose proof (sum_list_insert (holds_write ∘ at_pc) _ _ _ g' Hg) as Hsw.
  unfold lock_consistent, readers_in, writers_in in *. simpl in *.
  unfold step in Hs.
  destruct (at_pc g) eqn:Hpc; repeat case_match; simplify_eq; simpl in *;
    repeat match goal with
           | H : _ || _ = false |- _ => apply orb_false_iff in H as [??]
           | H : negb _ = false |- _ => apply negb_false_iff in H
           | H : (_ =? _) = true |- _ => apply Nat.eqb_eq in H
           end;
    repeat split; try intros ?; try congruence; try lia.
Qed.

Lemma run_lock_consistent sched : ∀ sys tr sys',
  lock_consistent sys → run sys sched = Some (tr, sys') → lock_consistent sys'.
Proof.
  induction sched as [|j sched IH]; intros sys tr sys' Hinv Hrun.
  - simpl in Hrun. by simplify_eq.
  - simpl in Hrun.
    destruct (sys_step j sys) as [[e sys1]|] eqn:Hstep; [|done]. simpl in Hrun.
    destruct (run sys1 sched) as [[tr1 sys2]|] eqn:Hrun1; [|done].
    simpl in Hrun. simplify_eq.
    eapply IH; [|done]. by eapply sys_step_lock_consistent.
Qed.

Lemma finished_holds_nothing gs :
  Forall finished gs → readers_in gs = 0 ∧ writers_in gs = 0.
Proof.
  unfold readers_in, writers_in.
  induction 1 as [|g gs Hg _ [IHr IHw]]; [done|].
  rewrite !fmap_cons. cbn [sum_list]. rewrite IHr, IHw.
  unfold finished in Hg. unfold compose. by destruct (at_pc g).
Qed.

(** X22.  Lock discipline of the handlers.  From a state in which the mutex
    records exactly its holders, every execution keeps it so: at most one
    goroutine is between [Lock] and [Unlock], none is between [RLock] and
    [RUnlock] while one is, and once every goroutine has left its handler,
    by returning or by panicking, the mutex is free again. *)
Theorem handlers_keep_lock_discipline sys sched tr sys' :
  lock_consistent sys → run sys sched = Some (tr, sys') →
  lock_consistent sys' ∧
  writers_in (pool sys') ≤ 1 ∧
  (writers_in (pool sys') = 1 → readers_in (pool sys') = 0) ∧
  (Forall finished (pool sys') →
     stateMu (srv sys') = {| readers := 0; writer := false |}).
Proof.
  intros Hinv Hrun.
  pose proof (run_lock_consistent _ _ _ _ Hinv Hrun) as (Hr & Hw & Hrw).
  split; [done|]. split; [|split].
  - rewrite Hw. case_match; lia.
  - intros H1. rewrite <- Hr. apply Hrw.
    destruct (writer (stateMu (srv sys'))); [done|lia].
  - intros [Hr0 Hw0]%finished_holds_nothing.
    destruct (stateMu (srv sys')) as [n w]. simpl in *.
    f_equal; [lia|]. destruct w; [lia|done].
Qed.

(** X23.  The read-compute-swap sequence is not atomic: when two handlers
    both read the snapshot before either stores, both return normally, both
    stores are executed, and the snapshot left behind is the second
    handler's result on the original snapshot; the first handler's update
    is lost. *)
Theorem interleaved_handlers_lose_an_update
    (s s1 s2 : Snapshot) (f1 f2 : Snapshot → outcome Snapshot PanicValue) :
  f1 s = Returns s1 → f2 s = Returns s2 →
  ∃ tr,
    run {| srv := {| state := s; stateMu := mkRWMutex 0 false |};
           pool := [enter f1; enter f2] |}
        [0; 0; 0; 0; 1; 1; 1; 1; 0; 0; 0; 1; 1; 1] =
    Some (tr,
          {| srv := {| state := s2; stateMu := mkRWMutex 0 false |};
             pool := [goto (enter f1) (Returned s1);
                      goto (enter f2) (Returned s2)] |}) ∧
    (0, EvStore s1) ∈ tr ∧ (1, EvStore s2) ∈ tr.
Proof.
  intros Hf1 Hf2. eexists. split.
  - cbn. rewrite Hf1. cbn. rewrite Hf2. cbn. reflexivity.
  - split; apply list_elem_of_lookup; [by exists 9|by exists 12].
Qed.

(** X24.  When the two handlers run one after the other, the second sees
    the first one's snapshot and both updates are kept. *)
Theorem serial_handlers_keep_both_updates
    (s s1 s2 : Snapshot) (f1 f2 : Snapshot → outcome Snapshot PanicValue) :
  f1 s = Returns s1 → f2 s1 = Returns s2 →
  ∃ tr,
    run {| srv := {| state := s; stateMu := mkRWMutex 0 false |};
           pool := [enter f1; enter f2] |}
        [0; 0; 0; 0; 0; 0; 0; 1; 1; 1; 1; 1; 1; 1] =
    Some (tr,
          {| srv := {| state := s2; stateMu := mkRWMutex 0 false |};
             pool := [goto (enter f1) (Returned s1);
                      goto (enter f2) (Returned s2)] |}).
Proof.
  intros Hf1 Hf2. eexists.
  cbn. rewrite Hf1. cbn. rewrite Hf2. cbn. reflexivity.
Qed.

End HandlerProperties.

Lemma handlers_keep_lock_discipline_witness :
  let sys : server.system sudokuexample.SudokuState string :=
    {| server.srv := {| server.state := sudokuexample.empty;
                        server.stateMu := server.mkRWMutex 0 false |};
       server.pool := [server.enter (λ _, server.Panics "boom");
                       server.HandlePlace 1 1 3] |} in
  ∃ tr sys',
    server.run sys [0; 1; 0; 1; 0; 1; 0; 1; 1; 1; 1] = Some (tr, sys') ∧
    server.stateMu (server.srv sys') = server.mkRWMutex 0 false.
Proof.
  intros sys.
  destruct (server.run sys [0; 1; 0; 1; 0; 1; 0; 1; 1; 1; 1])
    as [[tr sys']|] eqn:Hrun; [|by vm_compute in Hrun].
  exists tr, sys'. split; [done|].
  destruct (handlers_keep_lock_discipline sys _ _ _ ltac:(by vm_compute) Hrun)
    as (_ & _ & _ & Hfree).
  apply Hfree. vm_compute in Hrun. injection Hrun as _ <-.
  by repeat constructor.
Defined.

(** Two [/add] requests against a fresh todo server. *)
Lemma interleaved_handlers_lose_an_update_witness :
  ∃ tr sys',
    server.run
      {| server.srv := {| server.state := httpserver.NewServer_state;
                          server.stateMu := server.mkRWMutex 0 false |};
         server.pool := [server.ProcessRequest (PanicValue := string) "a" 1%Z;
                         server.ProcessRequest "b" 2%Z] |}
      [0; 0; 0; 0; 1; 1; 1; 1; 0; 0; 0; 1; 1; 1] = Some (tr, sys') ∧
    httpserver.Todos (server.state (server.srv sys')) =
      [httpserver.mkTodo 1 "b" false 2%Z].
Proof.
  destruct (interleaved_handlers_lose_an_update (PanicValue := string)
              httpserver.NewServer_state
              (httpserver.Add httpserver.NewServer_state "a" 1%Z)
              (httpserver.Add httpserver.NewServer_state "b" 2%Z)
              (λ cur, server.Returns (httpserver.Add cur "a" 1%Z))
              (λ cur, server.Returns (httpserver.Add cur "b" 2%Z))
              eq_refl eq_refl) as (tr & Hrun & _).
  eexists tr, _. split; [exact Hrun|reflexivity].
Defined.

Lemma serial_handlers_keep_both_updates_witness :
  ∃ tr sys',
    server.run
      {| server.srv := {| server.state := httpserver.NewServer_state;
                          server.stateMu := server.mkRWMutex 0 false |};
         server.pool := [server.ProcessRequest (PanicValue := string) "a" 1%Z;
                         server.ProcessRequest "b" 2%Z] |}
      [0; 0; 0; 0; 0; 0; 0; 1; 1; 1; 1; 1; 1; 1] = Some (tr, sys') ∧
    httpserver.Todos (server.state (server.srv sys')) =
      [httpserver.mkTodo 1 "a" false 1%Z; httpserver.mkTodo 2 "b" false 2%Z].
Proof.
  destruct (serial_handlers_keep_both_updates (PanicValue := string)
              httpserver.NewServer_state
              (httpserver.Add httpserver.NewServer_state "a" 1%Z)
              (httpserver.Add (httpserver.Add httpserver.NewServer_state "a" 1%Z)
                              "b" 2%Z)
              (λ cur, server.Returns (httpserver.Add cur "a" 1%Z))
              (λ cur, server.Returns (httpserver.Add cur "b" 2%Z))
              eq_refl eq_refl) as (tr & Hrun).
  eexists tr, _. split; [exact Hrun|reflexivity].
Defined.

(** ** Package faulttest *)

Section FaulttestFacts.
Import faulttest.
Implicit Types (m dst src : gmap string string) (st : State) (key value : string).

(** The copy loop adds the entries of [src], overwriting equal keys. *)
Lemma copy_entries_union dst src : copy_entries dst src = src ∪ dst.
Proof.
  unfold copy_entries.
  apply (map_fold_weak_ind (λ r m, r = m ∪ dst)).
  - by rewrite (left_id_L ∅ (∪)).
  - intros k v m r Hk ->. by rewrite insert_union_l.
Qed.

Lemma SafeMerge_union m1 m2 : SafeMerge m1 m2 = m2 ∪ m1.
Proof.
  unfold SafeMerge. rewrite !copy_entries_union.
  by rewrite (right_id_L ∅ (∪)).
Qed.

Lemma SafeUpdate_insert m key value : SafeUpdate m key value = <[key := value]> m.
Proof.
  unfold SafeUpdate. rewrite copy_entries_union.
  by rewrite (right_id_L ∅ (∪)).
Qed.

Lemma size_union_bounds m1 m2 :
  size m1 ≤ size (m2 ∪ m1) ∧ size m2 ≤ size (m2 ∪ m1) ∧
  size (m2 ∪ m1) ≤ size m1 + size m2.
Proof.
  rewrite <- !size_dom, dom_union_L.
  pose proof (subseteq_size (dom m1) (dom m2 ∪ dom m1) ltac:(set_solver)).
  pose proof (subseteq_size (dom m2) (dom m2 ∪ dom m1) ltac:(set_solver)).
  pose proof (size_union_alt (dom m2) (dom m1)) as Halt.
  pose proof (subseteq_size (dom m1 ∖ dom m2) (dom m1) ltac:(set_solver)).
  lia.
Qed.

End FaulttestFacts.

Section FaulttestProperties.
Import faulttest.
Implicit Types (m : gmap string string) (st o : State) (key value : string).

(** X25.  [Set] on a non-nil state returns a state in which [Get] finds the
    new value under the key and finds every other key as before; the
    number of entries grows by one exactly when the key was absent.  The
    map of the result is [SafeUpdate] of the receiver's map. *)
Theorem Set_then_Get st key value :
  ∃ st',
    Set_ (Some st) key value = Ok (Some st') ∧
    data st' = SafeUpdate (data st) key value ∧
    Get (Some st') key = (value, true) ∧
    (∀ k, k ≠ key → Get (Some st') k = Get (Some st) k) ∧
    Len (Some st') =
      (Len (Some st) + if data st !! key is Some _ then 0 else 1)%Z.
Proof.
  exists {| data := SafeUpdate (data st) key value |}.
  split; [reflexivity|]. split; [reflexivity|].
  unfold Get, Len. cbn [data]. rewrite SafeUpdate_insert.
  split; [by rewrite lookup_insert_eq|]. split.
  - intros k Hne. by rewrite lookup_insert_ne.
  - destruct (data st !! key) as [old|] eqn:Hkey.
    + rewrite <- (insert_id (data st) key old Hkey) at 2.
      rewrite <- (insert_delete_eq (data st)), <- (insert_delete_eq (data st) key old).
      rewrite !map_size_insert_None by apply lookup_delete_eq. lia.
    + rewrite map_size_insert_None by done. lia.
Qed.

(** X26.  [Merge] of two non-nil states holds the entries of both, the
    right operand winning on a common key; it has at least as many entries
    as either operand and at most as many as both together.  Its map is
    [SafeMerge] of the two maps. *)
Theorem Merge_right_operand_wins st o :
  ∃ merged,
    Merge (Some st) (Some o) = Ok (Some merged) ∧
    data merged = SafeMerge (data st) (data o) ∧
    (∀ k, Get (Some merged) k =
          if (Get (Some o) k).2 then Get (Some o) k else Get (Some st) k) ∧
    (Len (Some st) ≤ Len (Some merged))%Z ∧
    (Len (Some o) ≤ Len (Some merged))%Z ∧
    (Len (Some merged) ≤ Len (Some st) + Len (Some o))%Z.
Proof.
  exists {| data := SafeMerge (data st) (data o) |}.
  split; [reflexivity|]. split; [reflexivity|].
  unfold Get, Len. cbn [data]. rewrite SafeMerge_union. split.
  - intros k. rewrite lookup_union.
    by destruct (data o !! k), (data st !! k).
  - pose proof (size_union_bounds (data st) (data o)). lia.
Qed.

(** X27.  [SafeMerge] obeys the laws its comment announces, identity and
    associativity, and is idempotent as well. *)
Theorem SafeMerge_laws m1 m2 m3 :
  SafeMerge ∅ m1 = m1 ∧ SafeMerge m1 ∅ = m1 ∧
  SafeMerge (SafeMerge m1 m2) m3 = SafeMerge m1 (SafeMerge m2 m3) ∧
  SafeMerge m1 m1 = m1.
Proof.
  rewrite !SafeMerge_union. repeat split.
  - by rewrite (right_id_L ∅ (∪)).
  - by rewrite (left_id_L ∅ (∪)).
  - by rewrite (assoc_L (∪)).
  - by rewrite (idemp_L (∪)).
Qed.

(** X28.  [Set] is [Merge] with the one-entry state: on a non-nil state
    both produce the same state. *)
Theorem Set_is_Merge_with_singleton st key value :
  Set_ (Some st) key value = Merge (Some st) (NewState {[key := value]}).
Proof.
  unfold Set_, Merge, NewState. rewrite !copy_entries_union.
  rewrite !(right_id_L ∅ (∪)). by rewrite insert_union_singleton_l.
Qed.




End FaulttestProperties.
